(** * NEO / swiftllm: request lifecycle and batch composition

    A shallow embedding of [swiftllm/structs.py]: the [Request] life cycle
    ([update_output], [__getstate__], [__setstate__]), the incremental cost
    accumulator [BatchPerfData] and the categorised [SubBatch] with its
    finalisation [set_model_forward_args].

    Python integers are [Z]; Python floats are binary64 numbers ([float],
    the primitive IEEE 754 type, rounding to nearest even as CPython does);
    Python lists are [list]s whose [append] adds at the end and whose [pop]
    removes the last element.  Request objects live in a heap and are named
    by references, so that a list naming one object twice is visible.  The
    list of output ids of a request is an object too, which two requests
    can hold in common ([create_request] keeps the list it is given): a
    [sharing] says which requests hold one list, and [append] reaches all
    of them.  Prompt lists are never changed in place by this code.
    Assertions are enabled (no [-O]).

    Of [evaluation/server.py] the file embeds the choice [start_server]
    makes from the server name and the arguments it computes for the
    engine; of [swiftllm/engine_config.py] the derived sizes. *)

From Stdlib Require Import Ascii String.
From Stdlib Require Import ZArith List Bool Lia QArith Floats.
From Stdlib Require Import FunctionalExtensionality.
From Equations Require Import Equations.
Import ListNotations.

Set Implicit Arguments.
Open Scope Z_scope.

(** ** Exceptions and outcomes *)

Inductive exn : Set :=
| AssertionError
| AttributeError
| IndexError.

Inductive outcome (A : Type) : Type :=
| Ret (a : A)
| Raise (e : exn).

Arguments Ret {A} a.
Arguments Raise {A} e.


(** ** Objects *)

(** A reference names one [Request] object. *)
Definition ref := nat.

(** [StepOutput(token_id, request)] *)
Record StepOutput : Set := { token_id : Z; request : ref }.

(** The attributes of a [Request] instance.  [__init__] sets all eight;
    [__setstate__] sets five of them only, and pickle rebuilds an instance
    without running [__init__].  The three attributes that only [__init__]
    sets are therefore optional here: [None] is "the instance has no such
    attribute", and reading it raises [AttributeError].  [output_q] is the
    content of the unbounded [asyncio.Queue], oldest entry first;
    [finished_event] is the flag of the [asyncio.Event]. *)
Record Request : Set := {
  prompt_token_ids : list Z;
  prompt_len : Z;
  output_len : Z;
  max_output_len : option Z;
  output_q : option (list StepOutput);
  finished_event : option bool;
  request_id : Z;
  output_token_ids : list Z
}.

Definition set_output_len (v : Z) (o : Request) : Request :=
  {| prompt_token_ids := prompt_token_ids o; prompt_len := prompt_len o;
     output_len := v; max_output_len := max_output_len o;
     output_q := output_q o; finished_event := finished_event o;
     request_id := request_id o; output_token_ids := output_token_ids o |}.

Definition set_output_token_ids (v : list Z) (o : Request) : Request :=
  {| prompt_token_ids := prompt_token_ids o; prompt_len := prompt_len o;
     output_len := output_len o; max_output_len := max_output_len o;
     output_q := output_q o; finished_event := finished_event o;
     request_id := request_id o; output_token_ids := v |}.

Definition set_output_q (v : list StepOutput) (o : Request) : Request :=
  {| prompt_token_ids := prompt_token_ids o; prompt_len := prompt_len o;
     output_len := output_len o; max_output_len := max_output_len o;
     output_q := Some v; finished_event := finished_event o;
     request_id := request_id o; output_token_ids := output_token_ids o |}.

Definition set_finished_event (v : bool) (o : Request) : Request :=
  {| prompt_token_ids := prompt_token_ids o; prompt_len := prompt_len o;
     output_len := output_len o; max_output_len := max_output_len o;
     output_q := output_q o; finished_event := Some v;
     request_id := request_id o; output_token_ids := output_token_ids o |}.

(** [Request.__init__(raw_request)]: only [max_output_len] is taken from
    the raw request. *)
Definition Request_init (raw_max_output_len : Z) : Request :=
  {| prompt_token_ids := []; prompt_len := 0; output_len := 0;
     max_output_len := Some raw_max_output_len;
     output_q := Some []; finished_event := Some false;
     request_id := -1; output_token_ids := [] |}.

(** An instance has every attribute the class declares. *)
Definition initialised (o : Request) : Prop :=
  max_output_len o <> None /\ output_q o <> None /\ finished_event o <> None.

(** ** The heap and the monad of heap-mutating, failing computations *)

Definition heap := ref -> Request.

Definition upd (h : heap) (r : ref) (o : Request) : heap :=
  fun r' => if Nat.eqb r' r then o else h r'.

(** A computation runs on a heap and leaves a heap behind also when it
    raises: what was mutated before the exception stays mutated. *)
Definition M (A : Type) : Type := heap -> heap * outcome A.

Definition ret {A} (a : A) : M A := fun h => (h, Ret a).
Definition raise {A} (e : exn) : M A := fun h => (h, Raise e).
Definition bind {A B} (c : M A) (k : A -> M B) : M B :=
  fun h => match c h with
           | (h', Ret a) => k a h'
           | (h', Raise e) => (h', Raise e)
           end.

Notation "x <- c ;; k" := (bind c (fun x => k))
  (at level 61, c at next level, right associativity).
Notation "c ;;; k" := (bind c (fun _ => k))
  (at level 61, right associativity).

(** Reading an attribute that is always there, one that may be missing,
    and assigning through a reference. *)
Definition read {A} (r : ref) (f : Request -> A) : M A :=
  fun h => (h, Ret (f (h r))).
Definition getattr {A} (r : ref) (f : Request -> option A) : M A :=
  fun h => match f (h r) with
           | Some a => (h, Ret a)
           | None => (h, Raise AttributeError)
           end.
Definition assign (r : ref) (f : Request -> Request) : M unit :=
  fun h => (upd h r (f (h r)), Ret tt).

(** ** Request *)

(** [seq_len] property. *)
Definition seq_len (o : Request) : Z := prompt_len o + output_len o.

(** [is_finished]: [self.output_len == self.max_output_len]. *)
Definition is_finished (self : ref) : M bool :=
  n <- read self output_len ;;
  m <- getattr self max_output_len ;;
  ret (n =? m).

Definition get_ids (h : heap) (reqs : list ref) : list Z :=
  map (fun req => request_id (h req)) reqs.

Definition get_lens (h : heap) (reqs : list ref) : list Z :=
  map (fun req => seq_len (h req)) reqs.

(** [l[-1:]] *)
Definition last1 {A} (l : list A) : list A :=
  match rev l with
  | [] => []
  | a :: _ => [a]
  end.

(** [sum([... for req in reqs], [])] *)
Definition get_input_tokens (h : heap) (reqs : list ref) : list Z :=
  concat (map (fun req => if output_len (h req) =? 0
                          then prompt_token_ids (h req)
                          else last1 (output_token_ids (h req))) reqs).

(** ** Shared output lists *)

(** [output_token_ids] holds a list object and [append] changes that
    object: every request that holds the same object sees the new token.
    [create_request] keeps the list it is given, so two requests can hold
    one list.  A [sharing] names, for each request, the list object it
    holds as [output_token_ids]; the attribute [output_token_ids] of the
    record is the content of that object as seen through the request.
    [update_output] never rebinds the attribute, so the sharing is the same
    all through a call.  With [own_lists] every request has a list of its
    own, as [__init__] and unpickling leave it. *)
Definition sharing := ref -> nat.

Definition own_lists : sharing := fun r => r.

(** The heap after [req.output_token_ids.append(tok)]: the token is at the
    end of the list of every request that holds the list of [req]. *)
Definition append_all (ls : sharing) (req : ref) (tok : Z) (h : heap) : heap :=
  fun r => if Nat.eqb (ls r) (ls req)
           then set_output_token_ids (output_token_ids (h r) ++ [tok]) (h r)
           else h r.

Definition append_output (ls : sharing) (req : ref) (tok : Z) : M unit :=
  fun h => (append_all ls req tok h, Ret tt).

(** Requests that hold one list see the same content. *)
Definition lists_agree (ls : sharing) (h : heap) : Prop :=
  forall r r', ls r = ls r' -> output_token_ids (h r) = output_token_ids (h r').

(** The body of the [for req, tok in zip(reqs, output_toks)] loop, with the
    list [finished_reqs] built so far. *)
Fixpoint update_loop (ls : sharing) (pairs : list (ref * Z))
  (finished_reqs : list ref) : M (list ref) :=
  match pairs with
  | [] => ret finished_reqs
  | (req, tok) :: rest =>
      n <- read req output_len ;;
      assign req (set_output_len (n + 1)) ;;;
      append_output ls req tok ;;;
      q <- getattr req output_q ;;
      assign req (set_output_q (q ++ [{| token_id := tok; request := req |}])) ;;;
      fin <- is_finished req ;;
      if fin
      then (_ <- getattr req finished_event ;;
            assign req (set_finished_event true) ;;;
            update_loop ls rest (finished_reqs ++ [req]))
      else update_loop ls rest finished_reqs
  end.

(** [Request.update_output(reqs, output_toks)], on a heap whose output
    lists are shared as [ls] says. *)
Definition update_output (ls : sharing) (reqs : list ref)
  (output_toks : list Z) : M (list ref) :=
  if Nat.eqb (length reqs) (length output_toks)
  then update_loop ls (combine reqs output_toks) []
  else raise AssertionError.

(** The dictionary [__getstate__] returns and [__setstate__] reads: five
    fixed keys. *)
Record State : Set := {
  st_prompt_token_ids : list Z;
  st_output_token_ids : list Z;
  st_prompt_len : Z;
  st_output_len : Z;
  st_request_id : Z
}.

Definition __getstate__ (self : Request) : State :=
  {| st_prompt_token_ids :=
       if output_len self =? 0 then prompt_token_ids self else [];
     st_output_token_ids :=
       if output_len self >? 0 then last1 (output_token_ids self) else [];
     st_prompt_len := prompt_len self;
     st_output_len := output_len self;
     st_request_id := request_id self |}.

(** [__setstate__] assigns five attributes of [self] and touches no
    other. *)
Definition __setstate__ (self : Request) (state : State) : Request :=
  {| prompt_token_ids := st_prompt_token_ids state;
     prompt_len := st_prompt_len state;
     output_len := st_output_len state;
     max_output_len := max_output_len self;
     output_q := output_q self;
     finished_event := finished_event self;
     request_id := st_request_id state;
     output_token_ids := st_output_token_ids state |}.

(** The instance pickle hands to [__setstate__]: made by [__new__], with
    no attribute at all.  The five attributes that [__setstate__] assigns
    hold placeholders here, which [__setstate__] overwrites. *)
Definition Request_new : Request :=
  {| prompt_token_ids := []; prompt_len := 0; output_len := 0;
     max_output_len := None; output_q := None; finished_event := None;
     request_id := 0; output_token_ids := [] |}.

(** Unpickling a serialisation view. *)
Definition reconstruct (state : State) : Request :=
  __setstate__ Request_new state.

(** ** PerfPredictor *)

(** The predictor class is not among the sources at hand; [BatchPerfData]
    uses it through five queries only, taken here as parameters.  The
    queries are pure and return Python floats, as the annotations of
    [linr_T], [cdec_T], [gpu_time] and [cpu_time] say. *)
Record PerfPredictor : Set := {
  get_linr_T : Z -> float;
  get_pref_T : Z -> float;
  get_gdec_T : Z -> float;
  get_cdec_T : Z -> Z -> float;
  get_lnch_T : float
}.

(** Modelled from the spec: [ZeroPerfPredictor] is imported from
    [swiftllm.perfpredictor], which is missing; the zero implementation
    returns 0 unconditionally for every query. *)
Definition ZeroPerfPredictor : PerfPredictor :=
  {| get_linr_T := fun _ => 0%float;
     get_pref_T := fun _ => 0%float;
     get_gdec_T := fun _ => 0%float;
     get_cdec_T := fun _ _ => 0%float;
     get_lnch_T := 0%float |}.

(** Every query answers a value [v] with [0 <= v]. *)
Definition nonneg (v : float) : Prop := PrimFloat.leb 0 v = true.

Definition nonneg_predictor (p : PerfPredictor) : Prop :=
  (forall s, nonneg (get_linr_T p s)) /\
  (forall s, nonneg (get_pref_T p s)) /\
  (forall n, nonneg (get_gdec_T p n)) /\
  (forall x n, nonneg (get_cdec_T p x n)) /\
  nonneg (get_lnch_T p).

(** ** BatchPerfData *)

Module BatchPerfData.

Record t : Set := {
  x : Z;
  s : Z;
  n_g : Z;
  x_c : Z;
  n_c : Z;
  predictor : PerfPredictor;
  pref_T : float;
  gdec_T : float;
  lnch_T : float
}.

(** [__init__] *)
Definition init (predictor : PerfPredictor) : t :=
  {| x := 0; s := 0; n_g := 0; x_c := 0; n_c := 0;
     predictor := predictor;
     pref_T := 0%float; gdec_T := 0%float;
     lnch_T := get_lnch_T predictor |}.

Definition add_pref (self : t) (prompt_len : Z) : t :=
  {| x := x self + 1;
     s := s self + prompt_len;
     n_g := n_g self; x_c := x_c self; n_c := n_c self;
     predictor := predictor self;
     pref_T := (pref_T self + get_pref_T (predictor self) prompt_len)%float;
     gdec_T := gdec_T self; lnch_T := lnch_T self |}.

Definition pop_pref (self : t) (prompt_len : Z) : t :=
  {| x := x self - 1;
     s := s self - prompt_len;
     n_g := n_g self; x_c := x_c self; n_c := n_c self;
     predictor := predictor self;
     pref_T := (pref_T self - get_pref_T (predictor self) prompt_len)%float;
     gdec_T := gdec_T self; lnch_T := lnch_T self |}.

Definition add_gdec (self : t) (seq_len : Z) : t :=
  {| x := x self + 1;
     s := s self + 1;
     n_g := n_g self + seq_len;
     x_c := x_c self; n_c := n_c self;
     predictor := predictor self;
     pref_T := pref_T self;
     gdec_T := get_gdec_T (predictor self) (n_g self + seq_len);
     lnch_T := lnch_T self |}.

Definition add_cdec (self : t) (seq_len : Z) : t :=
  {| x := x self + 1;
     s := s self + 1;
     n_g := n_g self;
     x_c := x_c self + 1;
     n_c := n_c self + seq_len;
     predictor := predictor self;
     pref_T := pref_T self; gdec_T := gdec_T self; lnch_T := lnch_T self |}.

Definition pop_cdec (self : t) (seq_len : Z) : t :=
  {| x := x self - 1;
     s := s self - 1;
     n_g := n_g self;
     x_c := x_c self - 1;
     n_c := n_c self - seq_len;
     predictor := predictor self;
     pref_T := pref_T self; gdec_T := gdec_T self; lnch_T := lnch_T self |}.

Definition linr_T (self : t) : float := get_linr_T (predictor self) (s self).

Definition cdec_T (self : t) : float :=
  get_cdec_T (predictor self) (x_c self) (n_c self).

Definition gpu_time (self : t) : float :=
  (linr_T self + pref_T self + gdec_T self)%float.

Definition cpu_time (self : t) : float :=
  (cdec_T self + lnch_T self)%float.

End BatchPerfData.

(** ** SubBatch *)

(** [l.pop()]: the last element and the list without it; [IndexError] on
    an empty list. *)
Definition list_pop {A} (l : list A) : outcome (list A * A) :=
  match rev l with
  | [] => Raise IndexError
  | a :: l' => Ret (rev l', a)
  end.

(** [sum(l)] and [max(l, default=0)] over a list of integers. *)
Definition sum_list (l : list Z) : Z := fold_left Z.add l 0.

Definition max_list (l : list Z) : Z :=
  match l with
  | [] => 0
  | a :: l' => fold_left Z.max l' a
  end.

(** [l[a:b]] for [0 <= a] and [0 <= b]. *)
Definition slice {A} (a b : Z) (l : list A) : list A :=
  skipn (Z.to_nat a) (firstn (Z.to_nat b) l).

(** [len(l)] *)
Definition len {A} (l : list A) : Z := Z.of_nat (length l).

(** The one field of [LlamaModelConfig] that [set_model_forward_args]
    reads. *)
Record LlamaModelConfig : Set := { num_kv_heads : Z }.

(** The condition of the [while] loop that sizes the paged-attention
    blocks.  [/] is true division, taken here in the rationals: CPython
    rounds the quotient of two integers correctly, the divisors are powers
    of two up to 2048 and the bounds 1024 and 128 are binary64 numbers, so
    both comparisons come out as they do in the rationals for all counts
    in the binary64 range.  (Beyond that range CPython raises
    [OverflowError] at the division; such token counts do not occur and
    the case is left out.)  The three tests are joined by [and]: started
    from the seed 2048 the candidate never gets below 64, so no division
    by zero is ever short-circuited away. *)
Definition sizing_cond (num_kv_heads sum_gdec_toks max_gdec_toks
                        seq_block_size : Z) : bool :=
  negb (Qle_bool 1024 (inject_Z num_kv_heads *
                       (inject_Z sum_gdec_toks / inject_Z seq_block_size)))
  && (64 <=? seq_block_size / 2)
  && Qle_bool (inject_Z max_gdec_toks / inject_Z (seq_block_size / 2)) 128.

Definition inspect {A} (a : A) : {b : A | a = b} := exist _ a eq_refl.

(** [while cond: seq_block_size //= 2] *)
Equations? sizing_loop (num_kv_heads sum_gdec_toks max_gdec_toks : Z)
  (seq_block_size : Z) : Z by wf (Z.to_nat seq_block_size) lt :=
  sizing_loop kv sm mx sbs
    with inspect (sizing_cond kv sm mx sbs) := {
    | exist _ true _ => sizing_loop kv sm mx (sbs / 2)
    | exist _ false _ => sbs }.
Proof.
  unfold sizing_cond in e.
  apply andb_prop in e. destruct e as [e _].
  apply andb_prop in e. destruct e as [_ e].
  apply Z.leb_le in e.
  assert (0 < sbs).
  { destruct (Z_lt_le_dec 0 sbs) as [Hp | Hn]; [exact Hp | exfalso].
    assert (sbs / 2 <= 0) by (apply Z.div_le_upper_bound; lia). lia. }
  assert (sbs / 2 < sbs) by (apply Z.div_lt; lia).
  lia.
Defined.

(** What [set_model_forward_args] leaves on the object: the fields it
    sets, once [perfdata] and the four category lists are deleted. *)
Record Finalized : Set := {
  batch_size : Z;
  iter_width : Z;
  num_cprfs : Z;
  num_gprfs : Z;
  num_gdecs : Z;
  num_cdecs : Z;
  num_prefs : Z;
  num_prgds : Z;
  all_reqs : list ref;
  seq_ids_list : list Z;
  seq_lens_list : list Z;
  sum_pref_toks : Z;
  sum_prgd_toks : Z;
  max_pref_toks : Z;
  seq_block_size : Z;
  num_seq_blocks : Z
}.

Module SubBatch.

Record t : Set := {
  gprf_reqs : list ref;
  cprf_reqs : list ref;
  gdec_reqs : list ref;
  cdec_reqs : list ref;
  perfdata : BatchPerfData.t
}.

(** [__init__] *)
Definition init (predictor : PerfPredictor) : t :=
  {| gprf_reqs := []; cprf_reqs := []; gdec_reqs := []; cdec_reqs := [];
     perfdata := BatchPerfData.init predictor |}.

(** [__len__] *)
Definition __len__ (self : t) : Z := BatchPerfData.x (perfdata self).

Definition get_num_prefs (self : t) : Z :=
  len (gprf_reqs self) + len (cprf_reqs self).

Section Composition.

(** Composition reads the requests and never writes them. *)
Variable h : heap.

Definition add_pref (self : t) (req : ref) (is_gpu : bool) : t :=
  {| gprf_reqs := if is_gpu then gprf_reqs self ++ [req]
                  else gprf_reqs self;
     cprf_reqs := if is_gpu then cprf_reqs self
                  else cprf_reqs self ++ [req];
     gdec_reqs := gdec_reqs self;
     cdec_reqs := cdec_reqs self;
     perfdata := BatchPerfData.add_pref (perfdata self)
                                        (prompt_len (h req)) |}.

(** [is_gpu = not self.cprf_reqs]: the GPU list is popped only when
    the CPU list is empty. *)
Definition pop_pref (self : t) : outcome (t * (ref * bool)) :=
  let is_gpu := match cprf_reqs self with [] => true | _ => false end in
  match list_pop (if is_gpu then gprf_reqs self else cprf_reqs self) with
  | Raise e => Raise e
  | Ret (rest, req) =>
      Ret ({| gprf_reqs := if is_gpu then rest else gprf_reqs self;
              cprf_reqs := if is_gpu then cprf_reqs self else rest;
              gdec_reqs := gdec_reqs self;
              cdec_reqs := cdec_reqs self;
              perfdata := BatchPerfData.pop_pref (perfdata self)
                                                 (prompt_len (h req)) |},
           (req, is_gpu))
  end.

Definition add_gdec (self : t) (req : ref) : t :=
  {| gprf_reqs := gprf_reqs self;
     cprf_reqs := cprf_reqs self;
     gdec_reqs := gdec_reqs self ++ [req];
     cdec_reqs := cdec_reqs self;
     perfdata := BatchPerfData.add_gdec (perfdata self)
                                        (seq_len (h req)) |}.

Definition add_cdec (self : t) (req : ref) : t :=
  {| gprf_reqs := gprf_reqs self;
     cprf_reqs := cprf_reqs self;
     gdec_reqs := gdec_reqs self;
     cdec_reqs := cdec_reqs self ++ [req];
     perfdata := BatchPerfData.add_cdec (perfdata self)
                                        (seq_len (h req)) |}.

Definition pop_cdec (self : t) : outcome t :=
  match list_pop (cdec_reqs self) with
  | Raise e => Raise e
  | Ret (rest, req) =>
      Ret {| gprf_reqs := gprf_reqs self;
             cprf_reqs := cprf_reqs self;
             gdec_reqs := gdec_reqs self;
             cdec_reqs := rest;
             perfdata := BatchPerfData.pop_cdec (perfdata self)
                                                (seq_len (h req)) |}
  end.

(** [set_model_forward_args]: the composing sub-batch is consumed and
    the finalised fields are produced, or the assertion on the request
    ids fails. *)
Definition set_model_forward_args (self : t)
  (model_config : LlamaModelConfig) : outcome Finalized :=
  let batch_size := BatchPerfData.x (perfdata self) in
  let iter_width := BatchPerfData.s (perfdata self) in
  let num_cprfs := len (cprf_reqs self) in
  let num_gprfs := len (gprf_reqs self) in
  let num_gdecs := len (gdec_reqs self) in
  let num_cdecs := len (cdec_reqs self) in
  let num_prefs := num_cprfs + num_gprfs in
  let num_prgds := num_prefs + num_gdecs in
  let all_reqs := cprf_reqs self ++ gprf_reqs self ++
                  gdec_reqs self ++ cdec_reqs self in
  if forallb (fun req => request_id (h req) >=? 0) all_reqs then
    let seq_ids_list := get_ids h all_reqs in
    let seq_lens_list := get_lens h all_reqs in
    let sum_pref_toks := sum_list (slice 0 num_prefs seq_lens_list) in
    let sum_prgd_toks := sum_pref_toks + num_gdecs in
    let max_pref_toks := max_list (slice 0 num_prefs seq_lens_list) in
    let sum_gdec_toks :=
      sum_list (slice num_prefs num_prgds seq_lens_list) in
    let max_gdec_toks :=
      max_list (slice num_prefs num_prgds seq_lens_list) in
    let seq_block_size :=
      sizing_loop (num_kv_heads model_config) sum_gdec_toks
                  max_gdec_toks 2048 in
    Ret {| batch_size := batch_size;
           iter_width := iter_width;
           num_cprfs := num_cprfs;
           num_gprfs := num_gprfs;
           num_gdecs := num_gdecs;
           num_cdecs := num_cdecs;
           num_prefs := num_prefs;
           num_prgds := num_prgds;
           all_reqs := all_reqs;
           seq_ids_list := seq_ids_list;
           seq_lens_list := seq_lens_list;
           sum_pref_toks := sum_pref_toks;
           sum_prgd_toks := sum_prgd_toks;
           max_pref_toks := max_pref_toks;
           seq_block_size := seq_block_size;
           num_seq_blocks :=
             (max_gdec_toks + seq_block_size - 1) / seq_block_size |}
  else Raise AssertionError.

End Composition.

End SubBatch.

(** * The net effect of [update_output] *)

(** One pass of the loop body over an object that has all its attributes:
    whether the object reaches its limit, and the object it leaves. *)
Definition reaches (o : Request) : bool :=
  match max_output_len o with
  | Some m => output_len o + 1 =? m
  | None => false
  end.

Definition advance (self : ref) (tok : Z) (o : Request) : Request :=
  {| prompt_token_ids := prompt_token_ids o;
     prompt_len := prompt_len o;
     output_len := output_len o + 1;
     max_output_len := max_output_len o;
     output_q :=
       match output_q o with
       | Some q => Some (q ++ [{| token_id := tok; request := self |}])
       | None => None
       end;
     finished_event := if reaches o then Some true else finished_event o;
     request_id := request_id o;
     output_token_ids := output_token_ids o ++ [tok] |}.

(** The heap one pass leaves: the request itself is advanced, and the
    token is also at the end of the list of every other request that
    holds its list. *)
Definition pass (ls : sharing) (r : ref) (tok : Z) (h : heap) : heap :=
  upd (append_all ls r tok h) r (advance r tok (h r)).

Fixpoint heap_after (ls : sharing) (pairs : list (ref * Z)) (h : heap)
  : heap :=
  match pairs with
  | [] => h
  | (r, tok) :: rest => heap_after ls rest (pass ls r tok h)
  end.

Fixpoint finished_after (ls : sharing) (pairs : list (ref * Z)) (h : heap)
  : list ref :=
  match pairs with
  | [] => []
  | (r, tok) :: rest =>
      (if reaches (h r) then [r] else [])
      ++ finished_after ls rest (pass ls r tok h)
  end.

(** A sharing for the examples: request 1 holds the list of request 0,
    every other request has a list of its own. *)
Definition shared_01 : sharing :=
  fun r => match r with
           | S O => O
           | _ => r
           end.

(** * Auxiliary definitions for the statements *)

(** A small heap for the examples: object 0 stops after one token,
    object 1 after five, object 2 has already produced its single token;
    every other reference names a fresh request with limit 3. *)
Definition example_heap : heap :=
  fun r =>
    match r with
    | O => Request_init 1
    | S O => Request_init 5
    | S (S O) =>
        {| prompt_token_ids := [11; 12]; prompt_len := 2; output_len := 1;
           max_output_len := Some 1; output_q := Some [];
           finished_event := Some true; request_id := 4;
           output_token_ids := [21] |}
    | _ => Request_init 3
    end.

(** Requests for the examples: request 0 has a prompt of 100 tokens,
    request 1 of 50, every other one an empty prompt; the request id is
    the reference. *)
Definition prompts_heap : heap :=
  fun r =>
    {| prompt_token_ids := []; prompt_len := Z.of_nat (100 - 50 * r);
       output_len := 0; max_output_len := Some 8; output_q := Some [];
       finished_event := Some false; request_id := Z.of_nat r;
       output_token_ids := [] |}.

(** The sub-batches a composer can build: a fresh one, and what an add or
    a pop that returns normally makes of a sub-batch already built.  A pop
    on empty lists raises and builds nothing. *)
Inductive composed (h : heap) (p : PerfPredictor) : SubBatch.t -> Prop :=
| composed_init :
    composed h p (SubBatch.init p)
| composed_add_pref sb req is_gpu :
    composed h p sb -> composed h p (SubBatch.add_pref h sb req is_gpu)
| composed_pop_pref sb sb' out :
    composed h p sb -> SubBatch.pop_pref h sb = Ret (sb', out) ->
    composed h p sb'
| composed_add_gdec sb req :
    composed h p sb -> composed h p (SubBatch.add_gdec h sb req)
| composed_add_cdec sb req :
    composed h p sb -> composed h p (SubBatch.add_cdec h sb req)
| composed_pop_cdec sb sb' :
    composed h p sb -> SubBatch.pop_cdec h sb = Ret sb' ->
    composed h p sb'.

(** [[req.prompt_len for req in reqs]] *)
Definition prompt_lens (h : heap) (reqs : list ref) : list Z :=
  map (fun req => prompt_len (h req)) reqs.

(** Unfold the operations and the projections of the two records, and
    nothing else. *)
Ltac sb_simpl :=
  cbn [SubBatch.add_pref SubBatch.add_gdec SubBatch.add_cdec SubBatch.init
       SubBatch.gprf_reqs SubBatch.cprf_reqs SubBatch.gdec_reqs
       SubBatch.cdec_reqs SubBatch.perfdata
       BatchPerfData.init BatchPerfData.add_pref BatchPerfData.pop_pref
       BatchPerfData.add_gdec BatchPerfData.add_cdec BatchPerfData.pop_cdec
       BatchPerfData.x BatchPerfData.s BatchPerfData.n_g BatchPerfData.x_c
       BatchPerfData.n_c BatchPerfData.predictor BatchPerfData.pref_T
       BatchPerfData.gdec_T BatchPerfData.lnch_T] in *.

(** The loop condition in the words of the specification: halving the
    candidate is allowed while the head-utilisation estimate is below
    1024, the halved candidate is at least 64, and the longest GPU-decode
    sequence needs at most 128 blocks of the halved size. *)
Definition may_halve (num_kv_heads sum_gdec_toks max_gdec_toks
                      candidate : Z) : Prop :=
  (inject_Z num_kv_heads * (inject_Z sum_gdec_toks / inject_Z candidate)
   < 1024)%Q /\
  64 <= candidate / 2 /\
  (inject_Z max_gdec_toks / inject_Z (candidate / 2) <= 128)%Q.

(** The candidate after [k] halvings of the seed. *)
Definition candidate (k : nat) : Z := 2048 / 2 ^ Z.of_nat k.

(** The mutators of [BatchPerfData], as data, and what a sequence of
    them does to an accumulator. *)
Inductive op : Set :=
| AddPref (prompt_len : Z)
| PopPref (prompt_len : Z)
| AddGdec (seq_len : Z)
| AddCdec (seq_len : Z)
| PopCdec (seq_len : Z).

Definition apply_op (pd : BatchPerfData.t) (o : op) : BatchPerfData.t :=
  match o with
  | AddPref n => BatchPerfData.add_pref pd n
  | PopPref n => BatchPerfData.pop_pref pd n
  | AddGdec n => BatchPerfData.add_gdec pd n
  | AddCdec n => BatchPerfData.add_cdec pd n
  | PopCdec n => BatchPerfData.pop_cdec pd n
  end.

Definition run (ops : list op) (pd : BatchPerfData.t) : BatchPerfData.t :=
  fold_left apply_op ops pd.

(** Stack order: every pop undoes the most recent add of its kind that is
    not undone yet, with the same argument.  [prefs] and [cdecs] are the
    arguments of the adds not undone yet, most recent first; the result is
    what is left of them after [ops], or [None] if a pop is out of
    order. *)
Fixpoint paired (prefs cdecs : list Z) (ops : list op)
  : option (list Z * list Z) :=
  match ops with
  | [] => Some (prefs, cdecs)
  | AddPref n :: ops' => paired (n :: prefs) cdecs ops'
  | PopPref n :: ops' =>
      match prefs with
      | m :: prefs' => if n =? m then paired prefs' cdecs ops' else None
      | [] => None
      end
  | AddGdec _ :: ops' => paired prefs cdecs ops'
  | AddCdec n :: ops' => paired prefs (n :: cdecs) ops'
  | PopCdec n :: ops' =>
      match cdecs with
      | m :: cdecs' => if n =? m then paired prefs cdecs' ops' else None
      | [] => None
      end
  end.


Definition is_pop_pref (o : op) : bool :=
  match o with PopPref _ => true | _ => false end.


(** [0 <= f] on the specification side of the binary64 numbers. *)
Definition sf_nonneg (f : spec_float) : Prop :=
  SFleb (S754_zero false) f = true.

(** A predictor for the examples: prefill costs 0.1 for a prompt of
    length 100 and 0.5 for any other, everything else is free. *)
Definition drift_predictor : PerfPredictor :=
  {| get_linr_T := fun _ => 0%float;
     get_pref_T := fun s => if s =? 100 then 0x1.999999999999ap-4%float
                            else 0.5%float;
     get_gdec_T := fun _ => 0%float;
     get_cdec_T := fun _ _ => 0%float;
     get_lnch_T := 0%float |}.

(** * Further definitions: the rest of [structs.py], [engine_config.py]
      and the argument arithmetic of [evaluation/server.py] *)

(** [create_request(prompt_token_ids, req_id, output_token_ids=None,
    quick_stop=False)]: a request made by [Request(RawRequest("", 0))]
    and then filled in.  [output_token_ids or []] turns both [None] and
    the empty list into a new empty list; a list that is not empty is kept
    as the object the caller passed, so that two requests made with one
    list hold it in common (the [sharing] of the heap says so). *)
Definition create_request (prompt_token_ids : list Z) (req_id : Z)
  (output_token_ids : option (list Z)) (quick_stop : bool) : Request :=
  let ret := Request_init 0 in
  let outs := match output_token_ids with
              | Some (tok :: toks) => tok :: toks
              | _ => []
              end in
  {| prompt_token_ids := prompt_token_ids;
     prompt_len := len prompt_token_ids;
     output_len := len outs;
     max_output_len := Some (if quick_stop then len outs + 1 else 10 ^ 9);
     output_q := output_q ret;
     finished_event := finished_event ret;
     request_id := req_id;
     output_token_ids := outs |}.

(** Two requests made by [create_request] with one and the same list
    [[5]] of output ids, at references 0 and 1 (with [shared_01] they hold
    that list in common); every other reference names such a request with
    a list of its own. *)
Definition twin_heap : heap :=
  fun r => create_request [1; 2; 3] (Z.of_nat r) (Some [5]) false.


(** What one call of [update_output] may change in an object: the output
    counter and the output ids grow together, the queue and the event may
    change, and nothing else does. *)
Definition grown (o o' : Request) : Prop :=
  prompt_token_ids o' = prompt_token_ids o /\
  prompt_len o' = prompt_len o /\
  request_id o' = request_id o /\
  max_output_len o' = max_output_len o /\
  exists new_toks,
    output_token_ids o' = output_token_ids o ++ new_toks /\
    output_len o' = output_len o + len new_toks.

(** What a call may do to a request that is not in its list but holds a
    list that is: ids are appended to the list and nothing else changes. *)
Definition list_grown (o o' : Request) : Prop :=
  exists new_toks,
    o' = set_output_token_ids (output_token_ids o ++ new_toks) o.

(** What holds of every request after a call: the four attributes that
    [update_output] never assigns are the same, the output ids are the old
    ones with ids appended, and the output counter has not decreased. *)
Definition touched (o o' : Request) : Prop :=
  prompt_token_ids o' = prompt_token_ids o /\
  prompt_len o' = prompt_len o /\
  request_id o' = request_id o /\
  max_output_len o' = max_output_len o /\
  (exists new_toks, output_token_ids o' = output_token_ids o ++ new_toks) /\
  output_len o <= output_len o'.

(** What one pass of the loop body does to the heap, whatever attributes
    the request has: the request [r] of the pass is replaced by an object
    with one more output token and a counter one higher, and the token is
    at the end of the list of every request that holds the list of [r]. *)
Definition pass_effect (ls : sharing) (r : ref) (tok : Z) (h h' : heap)
  : Prop :=
  exists o',
    h' = upd (append_all ls r tok h) r o' /\
    prompt_token_ids o' = prompt_token_ids (h r) /\
    prompt_len o' = prompt_len (h r) /\
    request_id o' = request_id (h r) /\
    max_output_len o' = max_output_len (h r) /\
    output_token_ids o' = output_token_ids (h r) ++ [tok] /\
    output_len o' = output_len (h r) + 1.

(** One add or one successful pop on a sub-batch, and any number of
    them. *)
Inductive sb_step (h : heap) : SubBatch.t -> SubBatch.t -> Prop :=
| step_add_pref sb req is_gpu :
    sb_step h sb (SubBatch.add_pref h sb req is_gpu)
| step_pop_pref sb sb' out :
    SubBatch.pop_pref h sb = Ret (sb', out) -> sb_step h sb sb'
| step_add_gdec sb req :
    sb_step h sb (SubBatch.add_gdec h sb req)
| step_add_cdec sb req :
    sb_step h sb (SubBatch.add_cdec h sb req)
| step_pop_cdec sb sb' :
    SubBatch.pop_cdec h sb = Ret sb' -> sb_step h sb sb'.

Inductive sb_steps (h : heap) : SubBatch.t -> SubBatch.t -> Prop :=
| steps_refl sb : sb_steps h sb sb
| steps_then sb sb' sb'' :
    sb_steps h sb sb' -> sb_step h sb' sb'' -> sb_steps h sb sb''.

(** [n] calls of [pop_pref] in a row, with what they return; the first
    exception ends the run. *)
Fixpoint pop_prefs (h : heap) (n : nat) (sb : SubBatch.t)
  : outcome (SubBatch.t * list (ref * bool)) :=
  match n with
  | O => Ret (sb, [])
  | S n' =>
      match SubBatch.pop_pref h sb with
      | Raise e => Raise e
      | Ret (sb', out) =>
          match pop_prefs h n' sb' with
          | Raise e => Raise e
          | Ret (sb'', outs) => Ret (sb'', out :: outs)
          end
      end
  end.

(** ** EngineConfig *)

Module EngineConfig.

Record t : Set := {
  model_path : string;
  use_dummy : bool;
  block_size : Z;
  gpu_mem_utilization : float;
  num_gpu_blocks_override : Z;
  swap_space : Z;
  max_seqs_in_block_table : Z;
  max_blocks_per_seq : Z;
  max_batch_size : Z;
  max_tokens_in_batch : Z;
  library_path : string;
  profile_result_path : string;
  extra_layer_for_cprf : bool;
  disable_partial_offl : bool;
  monitor_performance : bool;
  always_use_gpu : bool;
  tensor_parallel_degree : Z;
  num_cpu_blocks : Z;
  num_gpu_blocks : Z
}.

Definition max_seq_len (self : t) : Z :=
  block_size self * max_blocks_per_seq self.

Definition max_gpu_tokens (self : t) : Z :=
  block_size self * num_gpu_blocks self.

Definition max_cpu_tokens (self : t) : Z :=
  block_size self * num_cpu_blocks self.

End EngineConfig.

(** ** The engine arguments that [start_server] computes *)

(** The integer entries of the evaluation [config.json] that the branch
    of [start_server] for the engine of this repository reads. *)
Record EvalConfig : Set := {
  cfg_num_layers : Z;
  cfg_num_gpu_blocks_override : Z;
  cfg_swap_space : Z;
  cfg_block_size : Z;
  cfg_max_num_batched_tokens : Z;
  cfg_max_num_seqs : Z;
  cfg_tensor_parallel_size : Z
}.

(** The values that branch puts on the command line of
    [swiftllm.server.api_server], before [str] turns them into text. *)
Record EngineArgs : Set := {
  arg_switches : list string;
  arg_block_size : Z;
  arg_max_blocks_per_seq : Z;
  arg_max_seqs_in_block_table : Z;
  arg_max_batch_size : Z;
  arg_max_tokens_in_batch : Z;
  arg_tensor_parallel_degree : Z;
  arg_num_gpu_blocks_override : Z;
  arg_swap_space : Z
}.

(** The body of the branch [elif name in ["ours", "base", "fsdc",
    "ours_4"]] of [start_server], up to the command line; it is reached
    only through the tests of [start_server] below.  The switches and the
    two adjusted sizes depend on the name, the other values on the
    configuration alone.  [//] is floor division; [None] stands for its
    [ZeroDivisionError]. *)
Definition engine_branch (name : string) (config : EvalConfig)
  : option EngineArgs :=
  let nl := cfg_num_layers config in
  let variant :=
    if String.eqb name "base" then
      Some (["--always-use-gpu"%string],
            cfg_num_gpu_blocks_override config,
            cfg_swap_space config / 8)
    else if String.eqb name "ours" then
      if nl + 1 =? 0 then None
      else Some (["--extra-layer-for-cprf"%string],
                 cfg_num_gpu_blocks_override config * nl / (nl + 1),
                 cfg_swap_space config)
    else
      if nl + 1 =? 0 then None
      else Some (["--disable-partial-offl"%string;
                  "--extra-layer-for-cprf"%string],
                 cfg_num_gpu_blocks_override config * nl / (nl + 1),
                 cfg_swap_space config) in
  match variant with
  | None => None
  | Some (cmd, num_gpu_blocks_override, swap_space) =>
      if cfg_block_size config =? 0 then None
      else
        Some {| arg_switches := cmd;
                arg_block_size := cfg_block_size config;
                arg_max_blocks_per_seq :=
                  (cfg_max_num_batched_tokens config - 1)
                  / cfg_block_size config + 1;
                arg_max_seqs_in_block_table := cfg_max_num_seqs config;
                arg_max_batch_size := cfg_max_num_seqs config;
                arg_max_tokens_in_batch :=
                  cfg_max_num_batched_tokens config;
                arg_tensor_parallel_degree :=
                  cfg_tensor_parallel_size config;
                arg_num_gpu_blocks_override := num_gpu_blocks_override;
                arg_swap_space := swap_space |}
  end.

(** [name.replace("_4", "")]: every occurrence of ["_4"], found from the
    left and without overlap, is taken out. *)
Fixpoint remove_4 (s : string) : string :=
  match s with
  | String c1 (String c2 rest as tail) =>
      if Ascii.eqb c1 "_"%char && Ascii.eqb c2 "4"%char
      then remove_4 rest
      else String c1 (remove_4 tail)
  | _ => s
  end.

(** What [start_server] does with a server name: it starts the vllm
    server (that branch is not modelled any further), starts the engine of
    this repository with the given arguments, or raises. *)
Inductive launch : Set :=
| VllmBranch
| LaunchEngine (args : EngineArgs)
| RaiseValueError
| RaiseZeroDivisionError.

(** [start_server(name)] with the configuration it has read, up to the
    command it launches: the name loses its ["_4"], names that begin with
    ["vllm"] take the vllm branch, the four engine names take the engine
    branch, and any other name raises [ValueError].  Reading the
    configuration file, the log file, the process and the waiting are left
    out. *)
Definition start_server (name : string) (config : EvalConfig) : launch :=
  let name := remove_4 name in
  if String.prefix "vllm" name then VllmBranch
  else if existsb (String.eqb name)
                  ["ours"; "base"; "fsdc"; "ours_4"]%string
  then match engine_branch name config with
       | Some args => LaunchEngine args
       | None => RaiseZeroDivisionError
       end
  else RaiseValueError.

(** Requests for the examples, made by [create_request] with the
    reference as id: the even ones have a prompt of three tokens and no
    output yet, the odd ones have generated one token. *)
Definition created_heap : heap :=
  fun r =>
    create_request [1; 2; 3] (Z.of_nat r)
                   (if Nat.even r then None else Some [5]) false.

(** An evaluation configuration and a matching engine configuration, for
    the examples. *)
Definition example_eval_config : EvalConfig :=
  {| cfg_num_layers := 32; cfg_num_gpu_blocks_override := 1000;
     cfg_swap_space := 64; cfg_block_size := 16;
     cfg_max_num_batched_tokens := 2050; cfg_max_num_seqs := 256;
     cfg_tensor_parallel_size := 1 |}.

Definition example_engine_config : EngineConfig.t :=
  {| EngineConfig.model_path := "weights"; EngineConfig.use_dummy := false;
     EngineConfig.block_size := 16;
     EngineConfig.gpu_mem_utilization := 0.5%float;
     EngineConfig.num_gpu_blocks_override := 969;
     EngineConfig.swap_space := 64;
     EngineConfig.max_seqs_in_block_table := 256;
     EngineConfig.max_blocks_per_seq := 129;
     EngineConfig.max_batch_size := 256;
     EngineConfig.max_tokens_in_batch := 2050;
     EngineConfig.library_path := "lib";
     EngineConfig.profile_result_path := "profile";
     EngineConfig.extra_layer_for_cprf := true;
     EngineConfig.disable_partial_offl := false;
     EngineConfig.monitor_performance := false;
     EngineConfig.always_use_gpu := false;
     EngineConfig.tensor_parallel_degree := 1;
     EngineConfig.num_cpu_blocks := -1;
     EngineConfig.num_gpu_blocks := -1 |}.

(** * Lemmas and theorems *)

Lemma upd_same (h : heap) r o : upd h r o r = o.
Proof. unfold upd. now rewrite Nat.eqb_refl. Qed.

Lemma upd_other (h : heap) r r' o : r' <> r -> upd h r o r' = h r'.
Proof.
  intro Hne. unfold upd. destruct (Nat.eqb_spec r' r); congruence.
Qed.

Lemma upd_upd (h : heap) r o1 o2 : upd (upd h r o1) r o2 = upd h r o2.
Proof.
  apply functional_extensionality. intro r'. unfold upd.
  now destruct (Nat.eqb r' r).
Qed.

(** ** Appending to a list that may be shared *)

Lemma append_all_same ls r tok (h : heap) r' :
  ls r' = ls r ->
  append_all ls r tok h r' =
  set_output_token_ids (output_token_ids (h r') ++ [tok]) (h r').
Proof. intro E. unfold append_all. now rewrite E, Nat.eqb_refl. Qed.

Lemma append_all_other ls r tok (h : heap) r' :
  ls r' <> ls r -> append_all ls r tok h r' = h r'.
Proof.
  intro Hne. unfold append_all. destruct (Nat.eqb_spec (ls r') (ls r));
    congruence.
Qed.

Lemma append_all_upd ls r tok (h : heap) o :
  append_all ls r tok (upd h r o) =
  upd (append_all ls r tok h) r
      (set_output_token_ids (output_token_ids o ++ [tok]) o).
Proof.
  apply functional_extensionality. intro r'.
  unfold append_all, upd. destruct (Nat.eqb_spec r' r) as [->|Hne].
  - now rewrite Nat.eqb_refl.
  - reflexivity.
Qed.

(** A request that holds its list alone: the append changes no other
    request. *)
Lemma append_all_own ls r tok (h : heap) o :
  (forall r', ls r' = ls r -> r' = r) ->
  upd (append_all ls r tok h) r o = upd h r o.
Proof.
  intro Hown. apply functional_extensionality. intro r'.
  unfold upd. destruct (Nat.eqb_spec r' r) as [->|Hne]; [reflexivity|].
  apply append_all_other. intro E. apply Hne, Hown, E.
Qed.

Lemma own_lists_alone r r' : own_lists r' = own_lists r -> r' = r.
Proof. exact (fun E => E). Qed.

Lemma initialised_inv o :
  initialised o ->
  exists m q ev,
    max_output_len o = Some m /\ output_q o = Some q /\
    finished_event o = Some ev.
Proof.
  intros (Hm & Hq & He).
  destruct (max_output_len o) as [m|]; [|congruence].
  destruct (output_q o) as [q|]; [|congruence].
  destruct (finished_event o) as [ev|]; [|congruence].
  now exists m, q, ev.
Qed.

Lemma initialised_advance r tok o : initialised o -> initialised (advance r tok o).
Proof.
  intros Hi. destruct (initialised_inv Hi) as (m & q & ev & Hm & Hq & He).
  unfold initialised, advance, reaches. simpl. rewrite Hm, Hq, He.
  repeat split; try discriminate. destruct (_ =? _); discriminate.
Qed.



Lemma bind_read {A B} r (f : Request -> A) (k : A -> M B) h :
  (x <- read r f ;; k x) h = k (f (h r)) h.
Proof. reflexivity. Qed.

Lemma bind_assign {B} r f (k : M B) h :
  (assign r f ;;; k) h = k (upd h r (f (h r))).
Proof. reflexivity. Qed.

Lemma bind_append {B} ls r tok (k : M B) h :
  (append_output ls r tok ;;; k) h = k (append_all ls r tok h).
Proof. reflexivity. Qed.

Lemma bind_getattr {A B} r (f : Request -> option A) (k : A -> M B) h a :
  f (h r) = Some a -> (x <- getattr r f ;; k x) h = k a h.
Proof. intro E. unfold bind, getattr. now rewrite E. Qed.

Lemma bind_getattr_none {A B} r (f : Request -> option A) (k : A -> M B) h :
  f (h r) = None ->
  (x <- getattr r f ;; k x) h = (h, Raise AttributeError).
Proof. intro E. unfold bind, getattr. now rewrite E. Qed.

Lemma bind_ret {A B} (a : A) (k : A -> M B) h : (x <- ret a ;; k x) h = k a h.
Proof. reflexivity. Qed.

Lemma bind_assoc {A B C} (c : M A) (k : A -> M B) (k' : B -> M C) h :
  (y <- (x <- c ;; k x) ;; k' y) h = (x <- c ;; y <- k x ;; k' y) h.
Proof. unfold bind. destruct (c h) as [h' [a|e]]; reflexivity. Qed.

(** ** One pass of the loop *)

(** The three kinds of request in a pass: the request of the pass, another
    request that holds its list, and one that does not. *)
Lemma pass_cases ls r tok (h : heap) r' :
  (r' = r /\ pass ls r tok h r' = advance r tok (h r)) \/
  (r' <> r /\ ls r' = ls r /\
   pass ls r tok h r' =
   set_output_token_ids (output_token_ids (h r') ++ [tok]) (h r')) \/
  (r' <> r /\ ls r' <> ls r /\ pass ls r tok h r' = h r').
Proof.
  unfold pass. destruct (Nat.eq_dec r' r) as [->|Hne].
  - left. split; [reflexivity | apply upd_same].
  - right. rewrite upd_other by exact Hne.
    destruct (Nat.eq_dec (ls r') (ls r)) as [E|E].
    + left. split; [exact Hne|]. split; [exact E|].
      now apply append_all_same.
    + right. split; [exact Hne|]. split; [exact E|].
      now apply append_all_other.
Qed.

Lemma pass_same ls r tok (h : heap) :
  pass ls r tok h r = advance r tok (h r).
Proof. apply upd_same. Qed.

Lemma pass_other ls r tok (h : heap) r' :
  ls r' <> ls r -> pass ls r tok h r' = h r'.
Proof.
  intro Hne. destruct (pass_cases ls r tok h r')
    as [[-> _] | [(_ & E & _) | (_ & _ & E)]]; congruence.
Qed.

Lemma pass_max ls r tok (h : heap) r' :
  max_output_len (pass ls r tok h r') = max_output_len (h r').
Proof.
  destruct (pass_cases ls r tok h r')
    as [[-> E] | [(_ & _ & E) | (_ & _ & E)]]; now rewrite E.
Qed.

Lemma pass_len ls r tok (h : heap) r' :
  output_len (pass ls r tok h r') =
  output_len (h r') + (if Nat.eq_dec r r' then 1 else 0).
Proof.
  destruct (pass_cases ls r tok h r')
    as [[-> E] | [(Hne & _ & E) | (Hne & _ & E)]]; rewrite E;
    destruct (Nat.eq_dec _ _); subst; cbn; try congruence; lia.
Qed.

Lemma pass_ids ls r tok (h : heap) r' :
  output_token_ids (pass ls r tok h r') =
  output_token_ids (h r')
  ++ (if Nat.eqb (ls r') (ls r) then [tok] else []).
Proof.
  destruct (pass_cases ls r tok h r')
    as [[-> E] | [(_ & Hs & E) | (_ & Hs & E)]]; rewrite E.
  - now rewrite Nat.eqb_refl.
  - now rewrite Hs, Nat.eqb_refl.
  - apply Nat.eqb_neq in Hs. rewrite Hs. now rewrite app_nil_r.
Qed.


Lemma pass_initialised ls r tok (h : heap) r' :
  initialised (h r') -> initialised (pass ls r tok h r').
Proof.
  intro Hi. destruct (pass_cases ls r tok h r')
    as [[-> E] | [(_ & _ & E) | (_ & _ & E)]]; rewrite E.
  - now apply initialised_advance.
  - exact Hi.
  - exact Hi.
Qed.

(** A pass keeps the lists that are one list equal. *)
Lemma pass_agree ls r tok (h : heap) :
  lists_agree ls h -> lists_agree ls (pass ls r tok h).
Proof.
  intros Ha r1 r2 E. rewrite !pass_ids, E. f_equal. now apply Ha.
Qed.

(** One iteration of the loop, on an object with all its attributes. *)
Lemma update_loop_cons ls r tok rest fin (h : heap) :
  initialised (h r) ->
  update_loop ls ((r, tok) :: rest) fin h =
  update_loop ls rest (fin ++ if reaches (h r) then [r] else [])
              (pass ls r tok h).
Proof.
  intros Hi. destruct (initialised_inv Hi) as (m & q & ev & Hm & Hq & He).
  cbn [update_loop].
  rewrite bind_read, bind_assign, bind_append, append_all_upd.
  rewrite (@bind_getattr _ _ r output_q _ _ q)
    by (rewrite !upd_same; exact Hq).
  rewrite bind_assign. unfold is_finished.
  rewrite bind_assoc, bind_read, bind_assoc.
  rewrite (@bind_getattr _ _ r max_output_len _ _ m)
    by (rewrite !upd_same; exact Hm).
  rewrite bind_ret, !upd_same, !upd_upd.
  cbn [output_len set_output_q set_output_token_ids set_output_len].
  unfold reaches. rewrite Hm. unfold pass.
  destruct (output_len (h r) + 1 =? m) eqn:E.
  - rewrite (@bind_getattr _ _ r finished_event _ _ ev)
      by (rewrite !upd_same; exact He).
    rewrite bind_assign, upd_same, upd_upd.
    f_equal. f_equal. unfold advance, reaches, set_finished_event. cbn.
    now rewrite Hm, Hq, E.
  - rewrite app_nil_r. f_equal. f_equal.
    unfold advance, reaches, set_output_q, set_output_token_ids,
      set_output_len. cbn. now rewrite Hm, Hq, E.
Qed.

Lemma advance_max r tok o : max_output_len (advance r tok o) = max_output_len o.
Proof. reflexivity. Qed.


(** The loop, on objects that all have their attributes, never raises; it
    leaves [heap_after] and returns [finished_after]. *)
Lemma update_loop_run ls pairs :
  forall fin (h : heap),
    (forall r, In r (map fst pairs) -> initialised (h r)) ->
    update_loop ls pairs fin h =
    (heap_after ls pairs h, Ret (fin ++ finished_after ls pairs h)).
Proof.
  induction pairs as [|[r tok] rest IH]; intros fin h Hi.
  - cbn. now rewrite app_nil_r.
  - rewrite update_loop_cons by (apply Hi; now left).
    rewrite IH.
    + cbn [heap_after finished_after]. now rewrite app_assoc.
    + intros r' Hr'. apply pass_initialised, Hi. now right.
Qed.

(** A request that holds the list of no request of the loop is left as it
    was. *)
Lemma heap_after_frame ls pairs :
  forall (h : heap) r,
    ~ In (ls r) (map ls (map fst pairs)) -> heap_after ls pairs h r = h r.
Proof.
  induction pairs as [|[r0 tok] rest IH]; intros h r Hn; [reflexivity|].
  cbn in *. rewrite IH by tauto. apply pass_other. intro E.
  apply Hn. left. now symmetry.
Qed.

(** Requests that are distinct and hold distinct lists are each advanced
    once, by their own token. *)
Lemma heap_after_nodup ls pairs :
  forall (h : heap) r tok,
    NoDup (map ls (map fst pairs)) -> In (r, tok) pairs ->
    heap_after ls pairs h r = advance r tok (h r).
Proof.
  induction pairs as [|[r0 tok0] rest IH]; intros h r tok Hnd Hin; [easy|].
  cbn in Hnd. inversion Hnd as [|? ? Hnot Hnd']; subst.
  destruct Hin as [E | Hin].
  - inversion E; subst. cbn. rewrite heap_after_frame by exact Hnot.
    apply pass_same.
  - assert (ls r <> ls r0).
    { intro E. apply Hnot. rewrite <- E. apply in_map.
      apply in_map_iff. now exists (r, tok). }
    cbn. rewrite (IH _ r tok Hnd' Hin). now rewrite pass_other.
Qed.


Lemma heap_after_max ls pairs :
  forall (h : heap) r,
    max_output_len (heap_after ls pairs h r) = max_output_len (h r).
Proof.
  induction pairs as [|[r0 tok0] rest IH]; intros h r; [reflexivity|].
  cbn. rewrite IH. apply pass_max.
Qed.

Lemma heap_after_len ls pairs :
  forall (h : heap) r,
    output_len (heap_after ls pairs h r) =
    output_len (h r) + Z.of_nat (count_occ Nat.eq_dec (map fst pairs) r).
Proof.
  induction pairs as [|[r0 tok0] rest IH]; intros h r.
  - cbn. lia.
  - cbn [heap_after map fst count_occ]. rewrite IH, pass_len.
    destruct (Nat.eq_dec r0 r); lia.
Qed.

(** An object at or past its limit is never reported as finished. *)
Lemma finished_after_past ls pairs :
  forall (h : heap) r m,
    max_output_len (h r) = Some m -> m <= output_len (h r) ->
    ~ In r (finished_after ls pairs h).
Proof.
  induction pairs as [|[r0 tok0] rest IH]; intros h r m Hm Hle Hin; [easy|].
  cbn in Hin. apply in_app_or in Hin. destruct Hin as [Hin | Hin].
  - destruct (reaches (h r0)) eqn:E; [|easy].
    destruct Hin as [->|[]]. unfold reaches in E. rewrite Hm in E.
    apply Z.eqb_eq in E. lia.
  - revert Hin. apply (IH _ r m).
    + now rewrite pass_max.
    + rewrite pass_len. destruct (Nat.eq_dec r0 r); lia.
Qed.

Lemma heap_after_initialised ls pairs :
  forall (h : heap) r,
    initialised (h r) -> initialised (heap_after ls pairs h r).
Proof.
  induction pairs as [|[r0 tok] rest IH]; intros h r Hi; [exact Hi|].
  cbn. apply IH. now apply pass_initialised.
Qed.

Lemma heap_after_agree ls pairs :
  forall (h : heap), lists_agree ls h -> lists_agree ls (heap_after ls pairs h).
Proof.
  induction pairs as [|[r0 tok] rest IH]; intros h Ha; [exact Ha|].
  cbn. apply IH. now apply pass_agree.
Qed.

Lemma map_fst_combine {A B} (l : list A) :
  forall (l' : list B), length l = length l' -> map fst (combine l l') = l.
Proof.
  induction l as [|a l IH]; intros [|b l'] Hlen; try easy.
  cbn. f_equal. apply IH. now inversion Hlen.
Qed.


(** [update_output] on lists of equal length whose objects have all their
    attributes. *)
Lemma update_output_run ls reqs toks (h : heap) :
  length reqs = length toks ->
  (forall r, In r reqs -> initialised (h r)) ->
  update_output ls reqs toks h =
  (heap_after ls (combine reqs toks) h,
   Ret (finished_after ls (combine reqs toks) h)).
Proof.
  intros Hlen Hi. unfold update_output.
  rewrite Hlen, Nat.eqb_refl.
  rewrite update_loop_run; [reflexivity|].
  now rewrite map_fst_combine.
Qed.

(** ** The loop in every outcome *)

Lemma grown_refl o : grown o o.
Proof.
  repeat split. exists []. rewrite app_nil_r. split; [reflexivity|].
  unfold len. cbn. lia.
Qed.

Lemma grown_trans o1 o2 o3 : grown o1 o2 -> grown o2 o3 -> grown o1 o3.
Proof.
  intros (Ha & Hb & Hc & Hd & t1 & Ht1 & Hl1)
         (Ha' & Hb' & Hc' & Hd' & t2 & Ht2 & Hl2).
  repeat split; try congruence.
  exists (t1 ++ t2). split.
  - now rewrite Ht2, Ht1, app_assoc.
  - rewrite Hl2, Hl1. unfold len. rewrite length_app. lia.
Qed.

Lemma list_grown_refl o : list_grown o o.
Proof. exists []. rewrite app_nil_r. now destruct o. Qed.

Lemma list_grown_trans o1 o2 o3 :
  list_grown o1 o2 -> list_grown o2 o3 -> list_grown o1 o3.
Proof.
  intros [t1 ->] [t2 ->]. exists (t1 ++ t2).
  unfold set_output_token_ids. cbn. now rewrite app_assoc.
Qed.

Lemma touched_refl o : touched o o.
Proof.
  repeat split; try lia. exists []. now rewrite app_nil_r.
Qed.

Lemma touched_trans o1 o2 o3 : touched o1 o2 -> touched o2 o3 -> touched o1 o3.
Proof.
  intros (Ha & Hb & Hc & Hd & [t1 Ht1] & Hl1)
         (Ha' & Hb' & Hc' & Hd' & [t2 Ht2] & Hl2).
  repeat split; try congruence; try lia.
  exists (t1 ++ t2). now rewrite Ht2, Ht1, app_assoc.
Qed.

Lemma grown_touched o o' : grown o o' -> touched o o'.
Proof.
  intros (Ha & Hb & Hc & Hd & t & Ht & Hl).
  repeat split; try assumption.
  - now exists t.
  - rewrite Hl. unfold len. lia.
Qed.

Lemma list_grown_touched o o' : list_grown o o' -> touched o o'.
Proof.
  intros [t ->]. repeat split; try reflexivity; try (cbn; lia).
  now exists t.
Qed.

(** One pass of the loop body either raises [AttributeError] or goes on
    with the rest of the pairs; in both cases the pass has had its effect
    on the counter and on the list. *)
Lemma update_loop_any_step ls r tok rest fin (h : heap) :
  exists h1,
    pass_effect ls r tok h h1 /\
    (update_loop ls ((r, tok) :: rest) fin h = (h1, Raise AttributeError)
     \/ exists fin',
          update_loop ls ((r, tok) :: rest) fin h
          = update_loop ls rest fin' h1).
Proof.
  assert (Hg : forall o,
             prompt_token_ids o = prompt_token_ids (h r) ->
             prompt_len o = prompt_len (h r) ->
             request_id o = request_id (h r) ->
             max_output_len o = max_output_len (h r) ->
             output_token_ids o = output_token_ids (h r) ++ [tok] ->
             output_len o = output_len (h r) + 1 ->
             pass_effect ls r tok h (upd (append_all ls r tok h) r o)).
  { intros o H1 H2 H3 H4 H5 H6. exists o. now repeat split. }
  cbn [update_loop].
  rewrite bind_read, bind_assign, bind_append, append_all_upd.
  cbn [output_token_ids set_output_len].
  set (h0 := append_all ls r tok h).
  set (o1 := set_output_token_ids (output_token_ids (h r) ++ [tok])
               (set_output_len (output_len (h r) + 1) (h r))).
  destruct (output_q (h r)) as [q|] eqn:Eq.
  2:{ exists (upd h0 r o1). split; [now apply Hg|]. left.
      apply bind_getattr_none. now rewrite upd_same. }
  rewrite (@bind_getattr _ _ r output_q _ _ q) by (now rewrite upd_same).
  rewrite bind_assign, upd_same, upd_upd. unfold is_finished.
  rewrite bind_assoc, bind_read, bind_assoc, upd_same.
  set (o2 := set_output_q (q ++ [{| token_id := tok; request := r |}]) o1).
  destruct (max_output_len (h r)) as [m|] eqn:Em.
  2:{ exists (upd h0 r o2). split; [now apply Hg|]. left.
      apply bind_getattr_none. now rewrite upd_same. }
  rewrite (@bind_getattr _ _ r max_output_len _ _ m) by (now rewrite upd_same).
  rewrite bind_ret.
  destruct (output_len o2 =? m).
  2:{ exists (upd h0 r o2). split; [now apply Hg|]. right. now exists fin. }
  destruct (finished_event (h r)) as [ev|] eqn:Ee.
  2:{ exists (upd h0 r o2). split; [now apply Hg|]. left.
      apply bind_getattr_none. now rewrite upd_same. }
  rewrite (@bind_getattr _ _ r finished_event _ _ ev) by (now rewrite upd_same).
  rewrite bind_assign, upd_same, upd_upd.
  exists (upd h0 r (set_finished_event true o2)). split; [now apply Hg|].
  right. now exists (fin ++ [r]).
Qed.

(** What a pass leaves of a request, by the kind of the request. *)
Lemma pass_effect_self ls r tok (h h1 : heap) :
  pass_effect ls r tok h h1 -> grown (h r) (h1 r).
Proof.
  intros (o' & -> & H1 & H2 & H3 & H4 & H5 & H6). rewrite upd_same.
  repeat split; try assumption. exists [tok]. split; [exact H5|].
  rewrite H6. reflexivity.
Qed.

Lemma pass_effect_sharer ls r tok (h h1 : heap) r' :
  pass_effect ls r tok h h1 -> r' <> r ->
  list_grown (h r') (h1 r').
Proof.
  intros (o' & -> & _) Hne. rewrite upd_other by exact Hne.
  unfold append_all. destruct (Nat.eqb (ls r') (ls r)).
  - now exists [tok].
  - apply list_grown_refl.
Qed.

Lemma pass_effect_other ls r tok (h h1 : heap) r' :
  pass_effect ls r tok h h1 -> ls r' <> ls r -> h1 r' = h r'.
Proof.
  intros (o' & -> & _) Hne. rewrite upd_other by congruence.
  now apply append_all_other.
Qed.

Lemma pass_effect_touched ls r tok (h h1 : heap) r' :
  pass_effect ls r tok h h1 -> touched (h r') (h1 r').
Proof.
  intro He. destruct (Nat.eq_dec r' r) as [->|Hne].
  - apply grown_touched. exact (pass_effect_self He).
  - apply list_grown_touched. eapply pass_effect_sharer; eassumption.
Qed.

Lemma pass_effect_ids ls r tok (h h1 : heap) r' :
  pass_effect ls r tok h h1 ->
  output_token_ids (h1 r') =
  output_token_ids (h r')
  ++ (if Nat.eqb (ls r') (ls r) then [tok] else []).
Proof.
  intros (o' & -> & _ & _ & _ & _ & H5 & _).
  destruct (Nat.eq_dec r' r) as [->|Hne].
  - now rewrite upd_same, Nat.eqb_refl.
  - rewrite upd_other by exact Hne. unfold append_all.
    destruct (Nat.eqb (ls r') (ls r)); [reflexivity|].
    now rewrite app_nil_r.
Qed.

Lemma pass_effect_agree ls r tok (h h1 : heap) :
  pass_effect ls r tok h h1 -> lists_agree ls h -> lists_agree ls h1.
Proof.
  intros He Ha r1 r2 E.
  rewrite (pass_effect_ids r1 He), (pass_effect_ids r2 He), E.
  f_equal. now apply Ha.
Qed.

(** The loop in every outcome.  Every request is [touched] at most; a
    request whose list no other request of the loop holds is [grown]; a
    request that is not in the loop is [list_grown]; a request that holds
    the list of no request of the loop is the same; lists that are one
    list stay equal; and the only exception is [AttributeError]. *)
Lemma update_loop_any ls pairs :
  forall fin (h : heap),
    let res := update_loop ls pairs fin h in
    (forall r, touched (h r) (fst res r)) /\
    (forall r, (forall r0, In r0 (map fst pairs) -> ls r0 = ls r -> r0 = r) ->
               grown (h r) (fst res r)) /\
    (forall r, ~ In r (map fst pairs) -> list_grown (h r) (fst res r)) /\
    (forall r, ~ In (ls r) (map ls (map fst pairs)) -> fst res r = h r) /\
    (lists_agree ls h -> lists_agree ls (fst res)) /\
    ((exists fin', snd res = Ret fin') \/ snd res = Raise AttributeError).
Proof.
  induction pairs as [|[r0 tok] rest IH]; intros fin h; cbn zeta.
  - cbn. split; [intro; apply touched_refl|].
    split; [intros; apply grown_refl|].
    split; [intros; apply list_grown_refl|].
    split; [reflexivity|]. split; [tauto|]. left. now exists fin.
  - assert (Hone : forall (h1 : heap),
               pass_effect ls r0 tok h h1 ->
               (forall r, touched (h r) (h1 r)) /\
               (forall r, (forall r1, In r1 (map fst ((r0, tok) :: rest)) ->
                                      ls r1 = ls r -> r1 = r) ->
                          grown (h r) (h1 r)) /\
               (forall r, ~ In r (map fst ((r0, tok) :: rest)) ->
                          list_grown (h r) (h1 r)) /\
               (forall r, ~ In (ls r) (map ls (map fst ((r0, tok) :: rest))) ->
                          h1 r = h r) /\
               (lists_agree ls h -> lists_agree ls h1)).
    { intros h1 He. split; [|split; [|split; [|split]]].
      - intro r. exact (pass_effect_touched r He).
      - intros r Hown. destruct (Nat.eq_dec (ls r0) (ls r)) as [E|E].
        + rewrite <- (Hown r0 (or_introl eq_refl) E).
          exact (pass_effect_self He).
        + rewrite (pass_effect_other r He) by congruence. apply grown_refl.
      - intros r Hn. eapply pass_effect_sharer; [exact He|].
        intro; subst. apply Hn. now left.
      - intros r Hn. eapply pass_effect_other; [exact He|].
        intro E. apply Hn. left. now symmetry.
      - exact (pass_effect_agree He). }
    destruct (update_loop_any_step ls r0 tok rest fin h)
      as (h1 & He & [Hraise | [fin' Hnext]]).
    + rewrite Hraise. cbn [fst snd].
      destruct (Hone h1 He) as (H1 & H2 & H3 & H4 & H5).
      repeat (split; [assumption|]). now right.
    + rewrite Hnext.
      destruct (Hone h1 He) as (H1 & H2 & H3 & H4 & H5).
      destruct (IH fin' h1) as (I1 & I2 & I3 & I4 & I5 & I6).
      split; [|split; [|split; [|split; [|split]]]].
      * intro r. eapply touched_trans; [apply H1 | apply I1].
      * intros r Hown. eapply grown_trans; [now apply H2|].
        apply I2. intros r1 Hin. apply Hown. now right.
      * intros r Hn. eapply list_grown_trans; [now apply H3|].
        apply I3. intro Hin. apply Hn. now right.
      * intros r Hn. rewrite I4; [now apply H4|].
        intro Hin. apply Hn. now right.
      * intro Ha. now apply I5, H5.
      * exact I6.
Qed.

Lemma in_map_fst_combine {A B} (l : list A) (l' : list B) a :
  In a (map fst (combine l l')) -> In a l.
Proof.
  intro Hin. apply in_map_iff in Hin. destruct Hin as ([a0 b0] & <- & Hin).
  now apply in_combine_l in Hin.
Qed.

(** [update_output] in every outcome: the facts of [update_loop_any], for
    the request list. *)
Lemma update_output_any ls reqs toks (h : heap) :
  let res := update_output ls reqs toks h in
  (forall r, touched (h r) (fst res r)) /\
  (forall r, (forall r0, In r0 reqs -> ls r0 = ls r -> r0 = r) ->
             grown (h r) (fst res r)) /\
  (forall r, ~ In r reqs -> list_grown (h r) (fst res r)) /\
  (forall r, ~ In (ls r) (map ls reqs) -> fst res r = h r) /\
  (lists_agree ls h -> lists_agree ls (fst res)) /\
  (length reqs = length toks ->
   (exists fin', snd res = Ret fin') \/ snd res = Raise AttributeError).
Proof.
  cbn zeta. unfold update_output.
  destruct (Nat.eqb_spec (length reqs) (length toks)) as [Hlen | Hlen].
  - destruct (update_loop_any ls (combine reqs toks) [] h)
      as (I1 & I2 & I3 & I4 & I5 & I6).
    rewrite (map_fst_combine reqs toks Hlen) in I2, I3, I4.
    repeat (split; [assumption|]). intros _. exact I6.
  - cbn [fst snd raise]. split; [intro; apply touched_refl|].
    split; [intros; apply grown_refl|].
    split; [intros; apply list_grown_refl|].
    split; [reflexivity|]. split; [tauto|]. intro; contradiction.
Qed.

(** * Claims on [update_output] *)




(** A request named several times is advanced as many times. *)
Lemma update_output_counts_occurrences ls reqs toks (h : heap) r :
  length reqs = length toks ->
  (forall r', In r' reqs -> initialised (h r')) ->
  output_len (fst (update_output ls reqs toks h) r) =
  output_len (h r) + Z.of_nat (count_occ Nat.eq_dec reqs r).
Proof.
  intros Hlen Hi. rewrite update_output_run by assumption. cbn [fst].
  rewrite heap_after_len. now rewrite map_fst_combine.
Qed.




(** C10.  A request that is already finished and occurs once in the list
    given to a further [update_output] ends with [output_len] equal to
    [max_output_len + 1]; [is_finished] is then false, and the request is
    not in the returned list. *)
Theorem update_output_past_limit ls reqs toks (h : heap) r m :
  length reqs = length toks ->
  (forall r', In r' reqs -> initialised (h r')) ->
  max_output_len (h r) = Some m ->
  output_len (h r) = m ->
  count_occ Nat.eq_dec reqs r = 1%nat ->
  exists h' finished,
    update_output ls reqs toks h = (h', Ret finished) /\
    output_len (h' r) = m + 1 /\
    max_output_len (h' r) = Some m /\
    is_finished r h' = (h', Ret false) /\
    ~ In r finished.
Proof.
  intros Hlen Hi Hm Hout Hocc.
  assert (Hfst : map fst (combine reqs toks) = reqs)
    by now apply map_fst_combine.
  exists (heap_after ls (combine reqs toks) h),
         (finished_after ls (combine reqs toks) h).
  assert (Hl : output_len (heap_after ls (combine reqs toks) h r) = m + 1).
  { rewrite heap_after_len, Hfst, Hocc, Hout. lia. }
  assert (Hm' : max_output_len (heap_after ls (combine reqs toks) h r)
                = Some m).
  { now rewrite heap_after_max. }
  split; [now apply update_output_run|].
  split; [exact Hl|]. split; [exact Hm'|]. split.
  - unfold is_finished. rewrite bind_read.
    rewrite (@bind_getattr _ _ r max_output_len _ _ m) by exact Hm'.
    unfold ret. rewrite Hl. f_equal. f_equal. apply Z.eqb_neq. lia.
  - apply (@finished_after_past ls _ h r m); [exact Hm | lia].
Qed.

Lemma update_output_past_limit_witness :
  exists h' finished,
    update_output own_lists [1; 2]%nat [7; 8] example_heap
    = (h', Ret finished) /\
    output_len (h' 2%nat) = 1 + 1 /\
    max_output_len (h' 2%nat) = Some 1 /\
    is_finished 2%nat h' = (h', Ret false) /\
    ~ In 2%nat finished.
Proof.
  apply (@update_output_past_limit own_lists [1; 2]%nat [7; 8]
           example_heap 2%nat 1).
  - reflexivity.
  - intros r [<-|[<-|[]]]; repeat split; discriminate.
  - reflexivity.
  - reflexivity.
  - reflexivity.
Defined.

(** * Claims on the serialisation view *)

Lemma last1_app {A} (l : list A) a : last1 (l ++ [a]) = [a].
Proof. unfold last1. now rewrite rev_app_distr. Qed.

Lemma last1_idem {A} (l : list A) : last1 (last1 l) = last1 l.
Proof. unfold last1. destruct (rev l); reflexivity. Qed.

(** [__setstate__] overwrites the five attributes it assigns: what [self]
    held there before does not matter. *)
Lemma setstate_overwrites self self' state :
  max_output_len self = max_output_len self' ->
  output_q self = output_q self' ->
  finished_event self = finished_event self' ->
  __setstate__ self state = __setstate__ self' state.
Proof. intros E1 E2 E3. unfold __setstate__. now rewrite E1, E2, E3. Qed.

(** C9, the claim as stated fails: request 1 of [example_heap] accepts an
    update, while the request rebuilt from its serialisation view (placed
    at reference 9, with a list of its own) raises on the same update. *)
Lemma reconstructed_request_rejects_update :
  snd (update_output own_lists [1%nat] [7] example_heap) = Ret [] /\
  snd (update_output own_lists [9%nat] [7]
         (upd example_heap 9%nat
              (reconstruct (__getstate__ (example_heap 1%nat)))))
  = Raise AttributeError.
Proof. split; reflexivity. Qed.

(** C9, amended.  The view carries [prompt_len], [output_len] and
    [request_id]; the full [prompt_token_ids] exactly when
    [output_len == 0], and then no output id; otherwise no prompt id and,
    of the output ids, only the most recent one.  [__setstate__] assigns
    these five attributes and leaves the other three of [self] as they
    are, so a request rebuilt from the view alone (by pickle, on an
    instance that [__init__] never ran on) has the [request_id], the
    [seq_len] and the forward-pass input
    tokens of the original, but neither [max_output_len] nor an output
    queue nor a completion event: [update_output] on it raises
    [AttributeError], after it has raised [output_len] and appended the
    token (to the list of the rebuilt request, which is a list of its own
    when pickle made it). *)
Theorem getstate_setstate_view (h : heap) (r r' : ref) :
  0 <= output_len (h r) ->
  h r' = reconstruct (__getstate__ (h r)) ->
  let view := __getstate__ (h r) in
  (st_prompt_len view = prompt_len (h r) /\
   st_output_len view = output_len (h r) /\
   st_request_id view = request_id (h r)) /\
  (output_len (h r) = 0 ->
   st_prompt_token_ids view = prompt_token_ids (h r) /\
   st_output_token_ids view = []) /\
  (output_len (h r) <> 0 ->
   st_prompt_token_ids view = [] /\
   st_output_token_ids view = last1 (output_token_ids (h r)) /\
   forall l tok, output_token_ids (h r) = l ++ [tok] ->
                 st_output_token_ids view = [tok]) /\
  (prompt_token_ids (h r') = st_prompt_token_ids view /\
   output_token_ids (h r') = st_output_token_ids view /\
   prompt_len (h r') = prompt_len (h r) /\
   output_len (h r') = output_len (h r) /\
   request_id (h r') = request_id (h r)) /\
  (forall self,
      max_output_len (__setstate__ self view) = max_output_len self /\
      output_q (__setstate__ self view) = output_q self /\
      finished_event (__setstate__ self view) = finished_event self) /\
  (max_output_len (h r') = None /\ output_q (h r') = None /\
   finished_event (h r') = None) /\
  (get_ids h [r'] = get_ids h [r] /\
   get_lens h [r'] = get_lens h [r] /\
   get_input_tokens h [r'] = get_input_tokens h [r]) /\
  (forall ls tok,
      update_output ls [r'] [tok] h =
      (upd (append_all ls r' tok h) r'
           (set_output_token_ids (output_token_ids (h r') ++ [tok])
              (set_output_len (output_len (h r') + 1) (h r'))),
       Raise AttributeError)) /\
  (forall tok,
      update_output own_lists [r'] [tok] h =
      (upd h r' (set_output_token_ids (output_token_ids (h r') ++ [tok])
                   (set_output_len (output_len (h r') + 1) (h r'))),
       Raise AttributeError)).
Proof.
  intros Hpos Hr' view.
  assert (Hgt : output_len (h r) <> 0 -> (output_len (h r) >? 0) = true).
  { intro. apply Z.gtb_lt. lia. }
  assert (Hupd : forall ls tok,
      update_output ls [r'] [tok] h =
      (upd (append_all ls r' tok h) r'
           (set_output_token_ids (output_token_ids (h r') ++ [tok])
              (set_output_len (output_len (h r') + 1) (h r'))),
       Raise AttributeError)).
  { intros ls tok. unfold update_output.
    cbn [length Nat.eqb combine update_loop].
    rewrite bind_read, bind_assign, bind_append, append_all_upd.
    unfold bind, getattr. rewrite !upd_same. cbn.
    rewrite Hr'. reflexivity. }
  split; [now repeat split|].
  split; [|split; [|split; [|split; [|split; [|split; [|split]]]]]].
  - intro E. subst view. unfold __getstate__. cbn. rewrite E. now cbn.
  - intro E. subst view. unfold __getstate__. cbn. rewrite (Hgt E).
    apply Z.eqb_neq in E. rewrite E. repeat split.
    intros l tok ->. apply last1_app.
  - rewrite Hr'. now repeat split.
  - intro self. now repeat split.
  - rewrite Hr'. now repeat split.
  - unfold get_ids, get_lens, get_input_tokens, seq_len.
    cbn [map concat]. rewrite !Hr'. cbn. repeat split.
    rewrite !app_nil_r.
    destruct (Z.eqb_spec (output_len (h r)) 0) as [E | E]; [reflexivity|].
    rewrite (Hgt E). now rewrite last1_idem.
  - exact Hupd.
  - intro tok. rewrite Hupd. f_equal. apply append_all_own.
    intros r0. apply own_lists_alone.
Qed.

Lemma getstate_setstate_view_witness :
  get_input_tokens
    (upd example_heap 9%nat (reconstruct (__getstate__ (example_heap 2%nat))))
    [9%nat] = [21] /\
  update_output own_lists [9%nat] [7]
    (upd example_heap 9%nat (reconstruct (__getstate__ (example_heap 2%nat))))
  = (upd (upd example_heap 9%nat
              (reconstruct (__getstate__ (example_heap 2%nat))))
         9%nat
         {| prompt_token_ids := []; prompt_len := 2; output_len := 2;
            max_output_len := None; output_q := None;
            finished_event := None; request_id := 4;
            output_token_ids := [21; 7] |},
     Raise AttributeError).
Proof.
  pose (h := upd example_heap 9%nat
                 (reconstruct (__getstate__ (example_heap 2%nat)))).
  destruct (@getstate_setstate_view h 2%nat 9%nat)
    as (_ & _ & _ & _ & _ & _ & (_ & _ & Htok) & _ & Hupd).
  - cbn. lia.
  - reflexivity.
  - split; [exact Htok | exact (Hupd 7)].
Defined.

(** * Lists: [pop], [sum], [len] *)

Lemma list_pop_app {A} (l : list A) a : list_pop (l ++ [a]) = Ret (l, a).
Proof. unfold list_pop. rewrite rev_app_distr. cbn. now rewrite rev_involutive. Qed.

Lemma list_pop_nil {A} : @list_pop A [] = Raise IndexError.
Proof. reflexivity. Qed.

Lemma list_pop_inv {A} (l : list A) :
  match list_pop l with
  | Ret (rest, a) => l = rest ++ [a]
  | Raise e => l = [] /\ e = IndexError
  end.
Proof.
  destruct l as [|a0 l0] using rev_ind.
  - now cbn.
  - now rewrite list_pop_app.
Qed.

Lemma nonempty_snoc {A} (l : list A) : l <> [] -> exists l' a, l = l' ++ [a].
Proof.
  destruct l as [|a0 l0] using rev_ind; [easy|]. intros _. now exists l0, a0.
Qed.

Lemma fold_add_shift (l : list Z) : forall a, fold_left Z.add l a = a + sum_list l.
Proof.
  unfold sum_list. induction l as [|b l IH]; intro a; cbn.
  - lia.
  - rewrite IH, (IH b). lia.
Qed.

Lemma sum_list_cons a (l : list Z) : sum_list (a :: l) = a + sum_list l.
Proof. unfold sum_list at 1. cbn. apply fold_add_shift. Qed.

Lemma sum_list_app (l l' : list Z) : sum_list (l ++ l') = sum_list l + sum_list l'.
Proof.
  induction l as [|a l IH]; [reflexivity|].
  cbn [app]. rewrite !sum_list_cons, IH. lia.
Qed.

Lemma len_app {A} (l l' : list A) : len (l ++ l') = len l + len l'.
Proof. unfold len. rewrite length_app. lia. Qed.

Lemma len_cons {A} (a : A) (l : list A) : len (a :: l) = len l + 1.
Proof. unfold len. cbn [length]. lia. Qed.

(** * Claims on the prefill stack of a sub-batch *)

(** C2, the claim as stated fails: after [add_pref(r0, is_gpu=True)] and
    [add_pref(r1, is_gpu=False)] the first [pop_pref] returns the
    CPU-placed request, flag false, while the GPU list still holds
    [r0]. *)
Lemma pop_pref_returns_cpu_first :
  let sb := SubBatch.add_pref prompts_heap
              (SubBatch.add_pref prompts_heap
                 (SubBatch.init ZeroPerfPredictor) 0%nat true) 1%nat false in
  exists sb',
    SubBatch.pop_pref prompts_heap sb = Ret (sb', (1%nat, false)) /\
    SubBatch.gprf_reqs sb = [0%nat] /\
    SubBatch.gprf_reqs sb' = [0%nat] /\
    SubBatch.cprf_reqs sb' = [].
Proof. cbn. eexists. repeat split. Qed.

(** C2, amended.  On a sub-batch with at least one prefill request
    [pop_pref] returns normally; it removes and returns the most recently
    added request of the CPU-prefill list unless that list is empty,
    otherwise of the GPU-prefill list, with the flag [is_gpu] telling
    which (false for CPU), and it undoes that request's [prompt_len] in
    the cost accumulator.  After [add_pref(r1, True)] and
    [add_pref(r2, False)] on a fresh sub-batch, [pop_pref] returns the
    CPU-placed [r2] first and the GPU-placed [r1] second. *)
Theorem pop_pref_prefers_cpu (h : heap) (sb : SubBatch.t) :
  SubBatch.gprf_reqs sb <> [] \/ SubBatch.cprf_reqs sb <> [] ->
  (exists sb' req is_gpu,
      SubBatch.pop_pref h sb = Ret (sb', (req, is_gpu)) /\
      (is_gpu = true <-> SubBatch.cprf_reqs sb = []) /\
      (is_gpu = false ->
       SubBatch.cprf_reqs sb = SubBatch.cprf_reqs sb' ++ [req] /\
       SubBatch.gprf_reqs sb' = SubBatch.gprf_reqs sb) /\
      (is_gpu = true ->
       SubBatch.gprf_reqs sb = SubBatch.gprf_reqs sb' ++ [req] /\
       SubBatch.cprf_reqs sb' = SubBatch.cprf_reqs sb) /\
      SubBatch.gdec_reqs sb' = SubBatch.gdec_reqs sb /\
      SubBatch.cdec_reqs sb' = SubBatch.cdec_reqs sb /\
      SubBatch.perfdata sb' =
        BatchPerfData.pop_pref (SubBatch.perfdata sb) (prompt_len (h req)))
  /\
  (forall p r1 r2,
      exists sb1 sb2,
        SubBatch.pop_pref h
          (SubBatch.add_pref h
             (SubBatch.add_pref h (SubBatch.init p) r1 true) r2 false)
        = Ret (sb1, (r2, false)) /\
        SubBatch.pop_pref h sb1 = Ret (sb2, (r1, true)) /\
        SubBatch.get_num_prefs sb2 = 0).
Proof.
  intros Hne. split.
  - unfold SubBatch.pop_pref.
    destruct (SubBatch.cprf_reqs sb) as [|c cs] eqn:Ec.
    + destruct Hne as [Hg | Hc]; [|easy].
      destruct (nonempty_snoc Hg) as (l & a & El). rewrite El, list_pop_app.
      eexists _, a, true. split; [reflexivity|]. cbn.
      repeat split; easy.
    + destruct (@nonempty_snoc _ (c :: cs)) as (l & a & El); [easy|].
      rewrite El, list_pop_app.
      eexists _, a, false. split; [reflexivity|]. cbn.
      repeat split; try easy. intro H. now destruct l.
  - intros p r1 r2. unfold SubBatch.pop_pref, SubBatch.add_pref. cbn.
    eexists _, _. split; [reflexivity|]. cbn. split; reflexivity.
Qed.

Lemma pop_pref_prefers_cpu_witness :
  exists sb' req is_gpu,
    SubBatch.pop_pref prompts_heap
      (SubBatch.add_pref prompts_heap (SubBatch.init ZeroPerfPredictor)
                         0%nat true)
    = Ret (sb', (req, is_gpu)) /\ req = 0%nat /\ is_gpu = true.
Proof.
  destruct (@pop_pref_prefers_cpu prompts_heap
              (SubBatch.add_pref prompts_heap
                 (SubBatch.init ZeroPerfPredictor) 0%nat true))
    as [(sb' & req & g & Hpop & Hg & _ & Hgpu & _) _].
  - left. discriminate.
  - exists sb', req, g. split; [exact Hpop|].
    assert (Eg : g = true) by (apply Hg; reflexivity).
    split; [|exact Eg].
    destruct (Hgpu Eg) as [El _]. cbn in El.
    apply (f_equal (@rev nat)) in El. rewrite rev_app_distr in El.
    cbn in El. now inversion El.
Defined.

(** * Sub-batches built by the add and pop operations *)

Lemma prompt_lens_app h l l' :
  prompt_lens h (l ++ l') = prompt_lens h l ++ prompt_lens h l'.
Proof. apply map_app. Qed.

Lemma len_snoc {A} (l : list A) a : len (l ++ [a]) = len l + 1.
Proof. rewrite len_app. reflexivity. Qed.

Lemma sum_prompt_lens_snoc h l req :
  sum_list (prompt_lens h (l ++ [req])) =
  sum_list (prompt_lens h l) + prompt_len (h req).
Proof.
  rewrite prompt_lens_app, sum_list_app. cbn [prompt_lens map].
  rewrite sum_list_cons. unfold sum_list. cbn. lia.
Qed.

(** A pop that returns normally, spelled out. *)
Lemma pop_pref_inv h sb sb' req is_gpu :
  SubBatch.pop_pref h sb = Ret (sb', (req, is_gpu)) ->
  (if is_gpu
   then SubBatch.cprf_reqs sb = [] /\
        SubBatch.gprf_reqs sb = SubBatch.gprf_reqs sb' ++ [req] /\
        SubBatch.cprf_reqs sb' = []
   else SubBatch.cprf_reqs sb = SubBatch.cprf_reqs sb' ++ [req] /\
        SubBatch.gprf_reqs sb' = SubBatch.gprf_reqs sb) /\
  SubBatch.gdec_reqs sb' = SubBatch.gdec_reqs sb /\
  SubBatch.cdec_reqs sb' = SubBatch.cdec_reqs sb /\
  SubBatch.perfdata sb' =
    BatchPerfData.pop_pref (SubBatch.perfdata sb) (prompt_len (h req)).
Proof.
  unfold SubBatch.pop_pref.
  destruct (SubBatch.cprf_reqs sb) as [|c cs] eqn:Ec.
  - pose proof (list_pop_inv (SubBatch.gprf_reqs sb)) as Hp.
    destruct (list_pop (SubBatch.gprf_reqs sb)) as [[rest a]|e]; [|easy].
    intro E. inversion E; subst. cbn. now repeat split.
  - pose proof (list_pop_inv (c :: cs)) as Hp.
    destruct (list_pop (c :: cs)) as [[rest a]|e]; [|easy].
    intro E. inversion E; subst. cbn. now repeat split.
Qed.

Lemma pop_cdec_inv h sb sb' :
  SubBatch.pop_cdec h sb = Ret sb' ->
  exists req,
    SubBatch.cdec_reqs sb = SubBatch.cdec_reqs sb' ++ [req] /\
    SubBatch.gprf_reqs sb' = SubBatch.gprf_reqs sb /\
    SubBatch.cprf_reqs sb' = SubBatch.cprf_reqs sb /\
    SubBatch.gdec_reqs sb' = SubBatch.gdec_reqs sb /\
    SubBatch.perfdata sb' =
      BatchPerfData.pop_cdec (SubBatch.perfdata sb) (seq_len (h req)).
Proof.
  unfold SubBatch.pop_cdec.
  pose proof (list_pop_inv (SubBatch.cdec_reqs sb)) as Hp.
  destruct (list_pop (SubBatch.cdec_reqs sb)) as [[rest a]|e]; [|easy].
  intro E. inversion E; subst. cbn. now exists a.
Qed.

(** The invariant that ties the totals to the lists. *)
Lemma composed_invariant (h : heap) (p : PerfPredictor) (sb : SubBatch.t) :
  composed h p sb ->
  BatchPerfData.x (SubBatch.perfdata sb) =
    len (SubBatch.gprf_reqs sb) + len (SubBatch.cprf_reqs sb) +
    len (SubBatch.gdec_reqs sb) + len (SubBatch.cdec_reqs sb) /\
  BatchPerfData.s (SubBatch.perfdata sb) =
    sum_list (prompt_lens h (SubBatch.gprf_reqs sb)) +
    sum_list (prompt_lens h (SubBatch.cprf_reqs sb)) +
    (len (SubBatch.gdec_reqs sb) + len (SubBatch.cdec_reqs sb)).
Proof.
  intros Hc.
  induction Hc as [ | sb req is_gpu Hc IH | sb sb' [req is_gpu] Hc IH Hpop
                  | sb req Hc IH | sb req Hc IH | sb sb' Hc IH Hpop ].
  - cbn. split; reflexivity.
  - destruct IH as (Hx & Hs). sb_simpl. rewrite Hx, Hs.
    destruct is_gpu; rewrite ?sum_prompt_lens_snoc, ?len_snoc; split; lia.
  - destruct IH as (Hx & Hs).
    destruct (pop_pref_inv _ _ Hpop) as (Hl & Hg & Hcd & Hpd).
    rewrite Hpd, Hg, Hcd. sb_simpl. rewrite Hx, Hs.
    destruct is_gpu.
    + destruct Hl as (Hc0 & Hgp & Hc1). rewrite Hc0, Hc1, Hgp.
      rewrite sum_prompt_lens_snoc, len_snoc. split; lia.
    + destruct Hl as (Hcp & Hgp). rewrite Hcp, Hgp.
      rewrite sum_prompt_lens_snoc, len_snoc. split; lia.
  - destruct IH as (Hx & Hs). sb_simpl. rewrite Hx, Hs, len_snoc.
    split; lia.
  - destruct IH as (Hx & Hs). sb_simpl. rewrite Hx, Hs, len_snoc.
    split; lia.
  - destruct IH as (Hx & Hs).
    destruct (pop_cdec_inv _ _ Hpop) as (req & Hcd & Hg & Hcp & Hgd & Hpd).
    rewrite Hpd, Hg, Hcp, Hgd. sb_simpl. rewrite Hx, Hs, Hcd, len_snoc.
    split; lia.
Qed.

(** C5.  In every sub-batch built from a fresh one by [add_pref],
    [pop_pref], [add_gdec], [add_cdec] and [pop_cdec], the count [x] is the
    sum of the lengths of the four category lists, so [len(SubBatch)] is
    that sum, and [s] is the sum of [prompt_len] over the prefill requests
    plus the number of decode requests. *)
Theorem composed_totals (h : heap) (p : PerfPredictor) (sb : SubBatch.t) :
  composed h p sb ->
  BatchPerfData.x (SubBatch.perfdata sb) =
    len (SubBatch.gprf_reqs sb) + len (SubBatch.cprf_reqs sb) +
    len (SubBatch.gdec_reqs sb) + len (SubBatch.cdec_reqs sb) /\
  SubBatch.__len__ sb =
    len (SubBatch.gprf_reqs sb) + len (SubBatch.cprf_reqs sb) +
    len (SubBatch.gdec_reqs sb) + len (SubBatch.cdec_reqs sb) /\
  BatchPerfData.s (SubBatch.perfdata sb) =
    sum_list (prompt_lens h (SubBatch.gprf_reqs sb ++
                             SubBatch.cprf_reqs sb)) +
    (len (SubBatch.gdec_reqs sb) + len (SubBatch.cdec_reqs sb)).
Proof.
  intros Hc. destruct (composed_invariant Hc) as (Hx & Hs).
  unfold SubBatch.__len__. rewrite prompt_lens_app, sum_list_app.
  repeat split; assumption.
Qed.

Lemma composed_totals_witness :
  let sb := SubBatch.add_cdec prompts_heap
              (SubBatch.add_pref prompts_heap
                 (SubBatch.init ZeroPerfPredictor) 1%nat false) 0%nat in
  BatchPerfData.x (SubBatch.perfdata sb) = 2 /\
  BatchPerfData.s (SubBatch.perfdata sb) = 51.
Proof.
  intro sb.
  destruct (@composed_totals prompts_heap ZeroPerfPredictor sb)
    as (Hx & _ & Hs).
  - apply composed_add_cdec, composed_add_pref, composed_init.
  - split; [exact Hx | exact Hs].
Defined.

(** * Finalisation *)

Lemma firstn_prefix {A} (l l' : list A) : firstn (length l) (l ++ l') = l.
Proof.
  rewrite <- (Nat.add_0_r (length l)), firstn_app_2, firstn_O.
  apply app_nil_r.
Qed.

Lemma skipn_prefix {A} (l l' : list A) : skipn (length l) (l ++ l') = l'.
Proof.
  induction l as [|a l IH]; [reflexivity|exact IH].
Qed.

(** [(p + m + t)[len(p) : len(p) + len(m)]] is [m]. *)
Lemma slice_middle {A} (p m t : list A) :
  slice (len p) (len p + len m) (p ++ m ++ t) = m.
Proof.
  unfold slice, len. rewrite <- Nat2Z.inj_add, !Nat2Z.id.
  rewrite <- length_app, app_assoc, firstn_prefix. apply skipn_prefix.
Qed.

Lemma get_lens_app h l l' : get_lens h (l ++ l') = get_lens h l ++ get_lens h l'.
Proof. apply map_app. Qed.

Lemma len_get_lens h l : len (get_lens h l) = len l.
Proof. unfold len, get_lens. now rewrite length_map. Qed.

(** The assertion of [set_model_forward_args] holds exactly when no
    request of the four lists has a negative id. *)
Lemma ids_assigned_spec h (reqs : list ref) :
  forallb (fun req => request_id (h req) >=? 0) reqs = true <->
  (forall req, In req reqs -> 0 <= request_id (h req)).
Proof.
  rewrite forallb_forall. split; intros H req Hin.
  - specialize (H req Hin). apply Z.geb_le in H. exact H.
  - apply Z.geb_le. now apply H.
Qed.

(** C3.  For a sub-batch built by the add and pop operations,
    [set_model_forward_args] fails on its assertion as soon as a request
    of the four lists has a negative [request_id]; otherwise it returns,
    [all_reqs] is the CPU-prefill, GPU-prefill, GPU-decode and CPU-decode
    lists concatenated in this order, and its length is
    [num_prgds + num_cdecs], which is the count [x] the sub-batch had
    before finalisation (kept as [batch_size]). *)
Theorem set_model_forward_args_all_reqs
  (h : heap) (p : PerfPredictor) (sb : SubBatch.t) (cfg : LlamaModelConfig) :
  composed h p sb ->
  let all := SubBatch.cprf_reqs sb ++ SubBatch.gprf_reqs sb ++
             SubBatch.gdec_reqs sb ++ SubBatch.cdec_reqs sb in
  ((exists req, In req all /\ request_id (h req) < 0) ->
   SubBatch.set_model_forward_args h sb cfg = Raise AssertionError) /\
  ((forall req, In req all -> 0 <= request_id (h req)) ->
   exists fin,
     SubBatch.set_model_forward_args h sb cfg = Ret fin /\
     all_reqs fin = all /\
     len (all_reqs fin) = num_prgds fin + num_cdecs fin /\
     num_prgds fin + num_cdecs fin = BatchPerfData.x (SubBatch.perfdata sb) /\
     batch_size fin = BatchPerfData.x (SubBatch.perfdata sb) /\
     SubBatch.__len__ sb = len (all_reqs fin)).
Proof.
  intros Hc all.
  destruct (composed_invariant Hc) as (Hx & _).
  unfold SubBatch.set_model_forward_args, SubBatch.__len__. fold all.
  destruct (forallb (fun req => request_id (h req) >=? 0) all) eqn:E.
  - split.
    + intros (req & Hin & Hneg).
      apply ids_assigned_spec with (req := req) in E; [lia | exact Hin].
    + intros _. eexists. split; [reflexivity|]. cbn.
      rewrite Hx. unfold all. rewrite !len_app. repeat split; lia.
  - split; [reflexivity|].
    intro Hall. apply ids_assigned_spec in Hall. congruence.
Qed.

Lemma set_model_forward_args_all_reqs_witness :
  let sb := SubBatch.add_gdec prompts_heap
              (SubBatch.add_pref prompts_heap
                 (SubBatch.add_pref prompts_heap
                    (SubBatch.init ZeroPerfPredictor) 0%nat true)
                 1%nat false) 2%nat in
  exists fin,
    SubBatch.set_model_forward_args prompts_heap sb {| num_kv_heads := 8 |}
    = Ret fin /\
    all_reqs fin = [1; 0; 2]%nat /\
    len (all_reqs fin) = num_prgds fin + num_cdecs fin.
Proof.
  intro sb.
  destruct (@set_model_forward_args_all_reqs prompts_heap ZeroPerfPredictor
              sb {| num_kv_heads := 8 |}) as [_ Hok].
  - apply composed_add_gdec, composed_add_pref, composed_add_pref,
      composed_init.
  - destruct Hok as (fin & Hrun & Hall & Hlen & _).
    + intros req _. unfold prompts_heap. cbn. lia.
    + exists fin. split; [exact Hrun|]. split; [exact Hall | exact Hlen].
Defined.

(** * Adaptive block sizing *)

Lemma sizing_cond_spec kv sm mx c :
  sizing_cond kv sm mx c = true <-> may_halve kv sm mx c.
Proof.
  unfold sizing_cond, may_halve.
  rewrite !andb_true_iff, negb_true_iff, Z.leb_le, Qle_bool_iff.
  rewrite <- not_true_iff_false, Qle_bool_iff.
  split; intros [[H1 H2] H3] || intros (H1 & H2 & H3); repeat split;
    try assumption.
  - now apply Qnot_le_lt.
  - now apply Qlt_not_le.
Qed.

Lemma sizing_loop_step kv sm mx sbs :
  sizing_loop kv sm mx sbs =
  if sizing_cond kv sm mx sbs then sizing_loop kv sm mx (sbs / 2) else sbs.
Proof.
  funelim (sizing_loop kv sm mx sbs).
  - now rewrite e.
  - now rewrite e.
Qed.

Lemma sizing_cond_floor kv sm mx c : c / 2 < 64 -> sizing_cond kv sm mx c = false.
Proof.
  intro Hlt. unfold sizing_cond.
  assert (E : (64 <=? c / 2) = false) by (apply Z.leb_gt; exact Hlt).
  rewrite E. now rewrite andb_false_r.
Qed.

(** From the seed 2048 the loop halves at most five times: it stops at the
    first candidate at which the condition fails, and it fails at 64. *)
Lemma sizing_loop_from_seed kv sm mx :
  exists k : nat,
    (k <= 5)%nat /\
    sizing_loop kv sm mx 2048 = candidate k /\
    (forall j, (j < k)%nat -> sizing_cond kv sm mx (candidate j) = true) /\
    sizing_cond kv sm mx (candidate k) = false.
Proof.
  assert (E5 : sizing_cond kv sm mx 64 = false)
    by (apply sizing_cond_floor; reflexivity).
  destruct (sizing_cond kv sm mx 2048) eqn:E0;
    [destruct (sizing_cond kv sm mx 1024) eqn:E1;
     [destruct (sizing_cond kv sm mx 512) eqn:E2;
      [destruct (sizing_cond kv sm mx 256) eqn:E3;
       [destruct (sizing_cond kv sm mx 128) eqn:E4|]|]|]|].
  1: exists 5%nat. 2: exists 4%nat. 3: exists 3%nat. 4: exists 2%nat.
  5: exists 1%nat. 6: exists 0%nat.
  all: split; [lia|]; split; [|split].
  all: try (intros j Hj;
            do 5 (try (destruct j as [|j]; [assumption|]));
            exfalso; lia).
  all: try assumption.
  all: rewrite sizing_loop_step, E0; try reflexivity.
  all: change (2048 / 2) with 1024; rewrite sizing_loop_step, E1;
    try reflexivity.
  all: change (1024 / 2) with 512; rewrite sizing_loop_step, E2;
    try reflexivity.
  all: change (512 / 2) with 256; rewrite sizing_loop_step, E3;
    try reflexivity.
  all: change (256 / 2) with 128; rewrite sizing_loop_step, E4;
    try reflexivity.
  change (128 / 2) with 64. now rewrite sizing_loop_step, E5.
Qed.

Lemma candidate_values k :
  (k <= 5)%nat ->
  candidate k = 2 ^ (11 - Z.of_nat k) /\
  candidate k * 2 ^ Z.of_nat k = 2048 /\
  64 <= candidate k <= 2048.
Proof.
  intro Hk.
  do 6 (destruct k as [|k]; [cbv; intuition discriminate|]).
  exfalso; lia.
Qed.

Lemma ceil_div m s :
  0 < s -> ((m + s - 1) / s - 1) * s < m <= (m + s - 1) / s * s.
Proof.
  intro Hs.
  pose proof (Z.div_mod (m + s - 1) s ltac:(lia)) as Hdm.
  pose proof (Z.mod_pos_bound (m + s - 1) s Hs) as Hb.
  nia.
Qed.

(** The GPU-decode sub-range of the length array. *)
Lemma gdec_slice h (c g d t : list ref) :
  slice (len c + len g) (len c + len g + len d)
        (get_lens h (c ++ g ++ d ++ t)) = get_lens h d.
Proof.
  rewrite app_assoc, (get_lens_app h (c ++ g)), (get_lens_app h d).
  rewrite <- (len_get_lens h d), <- len_app, <- (len_get_lens h (c ++ g)).
  apply slice_middle.
Qed.

(** C6.  When [set_model_forward_args] returns (the request ids are all
    assigned), the stored [seq_block_size] is [2048 / 2^k] for some
    [k <= 5], hence a power of two that divides 2048 and lies between 64
    and 2048; it is reached by halving from the seed 2048 while the
    condition holds ([may_halve] at each of the [k] candidates before it)
    and the condition fails at it; [num_seq_blocks] is the ceiling of the
    longest GPU-decode sequence length over [seq_block_size]. *)
Theorem seq_block_size_adaptive
  (h : heap) (sb : SubBatch.t) (cfg : LlamaModelConfig) :
  (forall req,
      In req (SubBatch.cprf_reqs sb ++ SubBatch.gprf_reqs sb ++
              SubBatch.gdec_reqs sb ++ SubBatch.cdec_reqs sb) ->
      0 <= request_id (h req)) ->
  let sum_gdec_toks := sum_list (get_lens h (SubBatch.gdec_reqs sb)) in
  let max_gdec_toks := max_list (get_lens h (SubBatch.gdec_reqs sb)) in
  exists fin,
    SubBatch.set_model_forward_args h sb cfg = Ret fin /\
    64 <= seq_block_size fin <= 2048 /\
    (exists k : nat,
        (k <= 5)%nat /\
        seq_block_size fin = 2048 / 2 ^ Z.of_nat k /\
        seq_block_size fin = 2 ^ (11 - Z.of_nat k) /\
        seq_block_size fin * 2 ^ Z.of_nat k = 2048 /\
        (forall j, (j < k)%nat ->
                   may_halve (num_kv_heads cfg) sum_gdec_toks max_gdec_toks
                             (2048 / 2 ^ Z.of_nat j)) /\
        ~ may_halve (num_kv_heads cfg) sum_gdec_toks max_gdec_toks
                    (seq_block_size fin)) /\
    (num_seq_blocks fin - 1) * seq_block_size fin < max_gdec_toks
      <= num_seq_blocks fin * seq_block_size fin.
Proof.
  intros Hids sm mx.
  apply ids_assigned_spec in Hids.
  unfold SubBatch.set_model_forward_args. rewrite Hids.
  eexists. split; [reflexivity|].
  cbn [seq_block_size num_seq_blocks]. rewrite gdec_slice. fold sm mx.
  destruct (sizing_loop_from_seed (num_kv_heads cfg) sm mx)
    as (k & Hk & Hres & Hbefore & Hstop).
  destruct (candidate_values Hk) as (Hpow & Hdiv & Hrange).
  rewrite Hres. split; [exact Hrange|]. split.
  - exists k. split; [exact Hk|]. split; [reflexivity|].
    split; [exact Hpow|]. split; [exact Hdiv|]. split.
    + intros j Hj. apply sizing_cond_spec. now apply Hbefore.
    + intro Hm. apply sizing_cond_spec in Hm. congruence.
  - apply ceil_div. lia.
Qed.

Lemma seq_block_size_adaptive_witness :
  let sb := SubBatch.add_gdec prompts_heap
              (SubBatch.add_gdec prompts_heap
                 (SubBatch.init ZeroPerfPredictor) 0%nat) 1%nat in
  exists fin,
    SubBatch.set_model_forward_args prompts_heap sb {| num_kv_heads := 8 |}
    = Ret fin /\
    64 <= seq_block_size fin <= 2048.
Proof.
  intro sb.
  destruct (@seq_block_size_adaptive prompts_heap sb {| num_kv_heads := 8 |})
    as (fin & Hrun & Hrange & _).
  - intros req _. unfold prompts_heap. cbn. lia.
  - exists fin. split; [exact Hrun | exact Hrange].
Defined.

Example sizing_small : sizing_loop 8 60 30 2048 = 64.
Proof. vm_compute. reflexivity. Qed.

Example sizing_large : sizing_loop 8 1000000 20000 2048 = 2048.
Proof. vm_compute. reflexivity. Qed.

Example sizing_middle : sizing_loop 8 100000 20000 2048 = 512.
Proof. vm_compute. reflexivity. Qed.

(** * Sequences of operations on the cost accumulator *)


(** * The round trip of an add and its pop *)


(** The cached prefill cost does drift: from [pref_T = 0.1], adding and
    taking off a cost of 0.2 leaves 0.10000000000000003. *)
Example pref_T_drift :
  ((0x1.999999999999ap-4 + 0x1.999999999999ap-3 - 0x1.999999999999ap-3
    =? 0x1.999999999999ap-4) = false)%float.
Proof. vm_compute. reflexivity. Qed.





(** * Signs of the estimated times *)

(** ** The sum of two non-negative binary64 numbers is non-negative *)

Lemma sf_nonneg_cases f :
  sf_nonneg f <->
  match f with
  | S754_zero _ => True
  | S754_infinity sg => sg = false
  | S754_finite sg _ _ => sg = false
  | S754_nan => False
  end.
Proof.
  unfold sf_nonneg, SFleb, SFcompare.
  destruct f as [sg|sg| |sg m e]; try destruct sg; intuition discriminate.
Qed.

Lemma shr_1_nonneg mrs : 0 <= shr_m mrs -> 0 <= shr_m (shr_1 mrs).
Proof.
  destruct mrs as [m r st]. cbn. intro Hm.
  destruct m as [|q|q]; [cbn; lia| |lia].
  destruct q; cbn; lia.
Qed.

Lemma iter_pos_shr_nonneg q :
  forall mrs, 0 <= shr_m mrs -> 0 <= shr_m (iter_pos shr_1 q mrs).
Proof.
  induction q as [q IH|q IH|]; intros mrs Hm; cbn.
  - apply IH, IH, shr_1_nonneg, Hm.
  - apply IH, IH, Hm.
  - apply shr_1_nonneg, Hm.
Qed.

Lemma shr_nonneg mrs e n : 0 <= shr_m mrs -> 0 <= shr_m (fst (shr mrs e n)).
Proof.
  intro Hm. unfold shr. destruct n; cbn; try assumption.
  now apply iter_pos_shr_nonneg.
Qed.

Lemma shr_fexp_nonneg prec emax m e l :
  0 <= m -> 0 <= shr_m (fst (shr_fexp prec emax m e l)).
Proof.
  intro Hm. unfold shr_fexp. apply shr_nonneg.
  destruct l as [|[| |]]; exact Hm.
Qed.

Lemma round_nearest_even_nonneg m l : 0 <= m -> 0 <= round_nearest_even m l.
Proof.
  intro Hm. unfold round_nearest_even.
  destruct l as [|[| |]]; try destruct (Z.even m); lia.
Qed.

Lemma binary_round_aux_nonneg prec emax mx ex lx :
  0 <= mx -> sf_nonneg (binary_round_aux prec emax false mx ex lx).
Proof.
  intro Hm. unfold binary_round_aux.
  pose proof (shr_fexp_nonneg prec emax ex lx Hm) as H1.
  destruct (shr_fexp prec emax mx ex lx) as [mrs' e']. cbn [fst] in H1.
  pose proof (shr_fexp_nonneg prec emax e' loc_Exact
                (round_nearest_even_nonneg (loc_of_shr_record mrs') H1))
    as H2.
  destruct (shr_fexp prec emax _ e' loc_Exact) as [mrs'' e''].
  cbn [fst] in H2.
  apply sf_nonneg_cases.
  destruct (shr_m mrs'') as [|q|q]; [exact I| |lia].
  now destruct (e'' <=? emax - prec).
Qed.

Lemma SFadd_nonneg prec emax a b :
  sf_nonneg a -> sf_nonneg b -> sf_nonneg (SFadd prec emax a b).
Proof.
  intros Ha Hb. pose proof Ha as Ha'. pose proof Hb as Hb'.
  apply sf_nonneg_cases in Ha', Hb'.
  destruct a as [sa|sa| |sa ma ea], b as [sb|sb| |sb mb eb];
    try contradiction; subst; cbn [SFadd]; try assumption.
  - destruct sa, sb; now apply sf_nonneg_cases.
  - cbn [cond_Zopp]. unfold binary_normalize.
    destruct (Z.pos _ + Z.pos _) as [|q|q] eqn:E;
      [now apply sf_nonneg_cases| |lia].
    unfold binary_round. destruct (shl_align q _ _) as [mz ez].
    now apply binary_round_aux_nonneg.
Qed.

Lemma nonneg_sf v : nonneg v <-> sf_nonneg (Prim2SF v).
Proof. unfold nonneg, sf_nonneg. rewrite leb_spec. reflexivity. Qed.

Lemma add_nonneg a b : nonneg a -> nonneg b -> nonneg (a + b)%float.
Proof. rewrite !nonneg_sf, add_spec. apply SFadd_nonneg. Qed.

Lemma nonneg_zero : nonneg 0%float.
Proof. reflexivity. Qed.

(** ** What every sequence of operations keeps *)

Lemma run_snoc ops o pd : run (ops ++ [o]) pd = apply_op (run ops pd) o.
Proof. unfold run. now rewrite fold_left_app. Qed.

(** The predictor and the launch overhead never change, and [gdec_T] is
    the seed 0 or an answer of the predictor. *)
Lemma run_keeps p ops :
  let st := run ops (BatchPerfData.init p) in
  BatchPerfData.predictor st = p /\
  BatchPerfData.lnch_T st = get_lnch_T p /\
  (BatchPerfData.gdec_T st = 0%float \/
   exists N, BatchPerfData.gdec_T st = get_gdec_T p N).
Proof.
  induction ops as [|o ops IH] using rev_ind.
  - cbn. auto.
  - rewrite run_snoc. cbv zeta in *. destruct IH as (Hp & Hl & Hg).
    destruct o; cbn [apply_op]; sb_simpl; rewrite ?Hp; auto.
    split; [reflexivity|]. split; [exact Hl|]. right. eauto.
Qed.

(** Without [pop_pref], [pref_T] is a sum of answers of the predictor. *)
Lemma run_pref_T_nonneg p ops :
  nonneg_predictor p ->
  forallb (fun o => negb (is_pop_pref o)) ops = true ->
  nonneg (BatchPerfData.pref_T (run ops (BatchPerfData.init p))).
Proof.
  intros Hp. induction ops as [|o ops IH] using rev_ind; intro Hops.
  - exact nonneg_zero.
  - rewrite forallb_app in Hops. apply andb_prop in Hops.
    destruct Hops as [Hops Ho]. specialize (IH Hops).
    rewrite run_snoc. destruct (run_keeps p ops) as (Hpred & _).
    destruct o; cbn [apply_op]; sb_simpl; try exact IH; try discriminate Ho.
    apply add_nonneg; [exact IH|]. rewrite Hpred. apply Hp.
Qed.

(** C7, the claim as stated fails: with a predictor whose answers are all
    non-negative, two prefill additions undone in stack order leave
    [pref_T = ((0.1 + 0.5) - 0.5) - 0.1], which is negative in binary64
    arithmetic (-2.7755575615628914e-17), and with it [gpu_time]. *)
Lemma gpu_time_negative_after_pops :
  let ops := [AddPref 100; AddPref 500; PopPref 500; PopPref 100] in
  let st := run ops (BatchPerfData.init drift_predictor) in
  nonneg_predictor drift_predictor /\
  paired [] [] ops = Some ([], []) /\
  BatchPerfData.x st = 0 /\
  PrimFloat.leb 0 (BatchPerfData.gpu_time st) = false /\
  PrimFloat.ltb (BatchPerfData.gpu_time st) 0 = true.
Proof.
  cbv zeta. split; [|split; [reflexivity|]].
  - unfold nonneg_predictor, nonneg, drift_predictor. cbn.
    repeat split; try reflexivity.
    intro s. now destruct (s =? 100).
  - split; [reflexivity|]. split; vm_compute; reflexivity.
Qed.

(** C7, amended.  Given a predictor whose every answer is non-negative,
    in every state the operations lead to from a fresh accumulator,
    [cpu_time >= 0]; [gpu_time >= 0] whenever the cached [pref_T] is
    non-negative, which it is in every state reached without [pop_pref].
    (After [pop_pref] the cache holds a rounded difference, which can be
    negative.) *)
Theorem times_nonneg (p : PerfPredictor) (ops : list op) :
  nonneg_predictor p ->
  let st := run ops (BatchPerfData.init p) in
  nonneg (BatchPerfData.cpu_time st) /\
  (nonneg (BatchPerfData.pref_T st) -> nonneg (BatchPerfData.gpu_time st)) /\
  (forallb (fun o => negb (is_pop_pref o)) ops = true ->
   nonneg (BatchPerfData.pref_T st) /\ nonneg (BatchPerfData.gpu_time st)).
Proof.
  intros Hp st.
  destruct (run_keeps p ops) as (Hpred & Hl & Hg). fold st in Hpred, Hl, Hg.
  pose proof Hp as (Hlin & Hpref & Hgd & Hcd & Hln).
  assert (Hgpu : nonneg (BatchPerfData.pref_T st) ->
                 nonneg (BatchPerfData.gpu_time st)).
  { intro Hpt. unfold BatchPerfData.gpu_time, BatchPerfData.linr_T.
    apply add_nonneg; [apply add_nonneg|].
    - rewrite Hpred. apply Hlin.
    - exact Hpt.
    - destruct Hg as [-> | [N ->]]; [exact nonneg_zero | apply Hgd]. }
  split; [|split; [exact Hgpu|]].
  - unfold BatchPerfData.cpu_time, BatchPerfData.cdec_T.
    apply add_nonneg; [rewrite Hpred; apply Hcd | rewrite Hl; exact Hln].
  - intro Hops. pose proof (run_pref_T_nonneg ops Hp Hops) as Hpt.
    split; [exact Hpt | exact (Hgpu Hpt)].
Qed.

Lemma times_nonneg_witness :
  let st := run [AddPref 100; AddGdec 30; AddCdec 20; PopCdec 20]
                (BatchPerfData.init drift_predictor) in
  nonneg (BatchPerfData.cpu_time st) /\ nonneg (BatchPerfData.gpu_time st).
Proof.
  intro st.
  destruct (@times_nonneg drift_predictor
              [AddPref 100; AddGdec 30; AddCdec 20; PopCdec 20])
    as (Hcpu & _ & Hgpu).
  - unfold nonneg_predictor, nonneg, drift_predictor. cbn.
    repeat split; try reflexivity.
    intro s. now destruct (s =? 100).
  - split; [exact Hcpu|]. apply Hgpu. reflexivity.
Defined.

(** With the zero predictor nothing drifts: both times are 0 after any
    sequence of operations. *)
Lemma zero_predictor_times ops :
  let st := run ops (BatchPerfData.init ZeroPerfPredictor) in
  BatchPerfData.gpu_time st = 0%float /\ BatchPerfData.cpu_time st = 0%float.
Proof.
  assert (Hinv : BatchPerfData.predictor
                   (run ops (BatchPerfData.init ZeroPerfPredictor))
                 = ZeroPerfPredictor /\
                 BatchPerfData.pref_T
                   (run ops (BatchPerfData.init ZeroPerfPredictor))
                 = 0%float /\
                 BatchPerfData.gdec_T
                   (run ops (BatchPerfData.init ZeroPerfPredictor))
                 = 0%float /\
                 BatchPerfData.lnch_T
                   (run ops (BatchPerfData.init ZeroPerfPredictor))
                 = 0%float).
  { induction ops as [|o ops IH] using rev_ind; [now cbn|].
    rewrite run_snoc. destruct IH as (Hp & Hpt & Hg & Hl).
    destruct o; cbn [apply_op]; sb_simpl; rewrite ?Hp, ?Hpt; auto. }
  destruct Hinv as (Hp & Hpt & Hg & Hl). cbv zeta.
  unfold BatchPerfData.gpu_time, BatchPerfData.cpu_time,
    BatchPerfData.linr_T, BatchPerfData.cdec_T.
  rewrite Hp, Hpt, Hg, Hl. split; reflexivity.
Qed.

(** * [update_output] in every outcome *)


(** X3.  In every outcome of [update_output], the exception in the
    middle of the loop included, the output ids of every request are the
    old ones with new ones appended, and [output_len] never decreases.
    For a request whose list no other request of the call holds,
    [output_len] has grown by the number of appended ids, so that a
    request with [output_len == len(output_token_ids)] keeps that
    equation.  Requests that hold one list still see equal lists. *)
Theorem update_output_counts_tokens ls reqs toks (h : heap) :
  let h' := fst (update_output ls reqs toks h) in
  (forall r,
      (exists new_toks,
          output_token_ids (h' r) = output_token_ids (h r) ++ new_toks) /\
      output_len (h r) <= output_len (h' r)) /\
  (forall r,
      (forall r0, In r0 reqs -> ls r0 = ls r -> r0 = r) ->
      (exists new_toks,
          output_token_ids (h' r) = output_token_ids (h r) ++ new_toks /\
          output_len (h' r) = output_len (h r) + len new_toks) /\
      (output_len (h r) = len (output_token_ids (h r)) ->
       output_len (h' r) = len (output_token_ids (h' r)))) /\
  (lists_agree ls h -> lists_agree ls h').
Proof.
  cbn zeta.
  destruct (update_output_any ls reqs toks h) as (I1 & I2 & _ & _ & I5 & _).
  split; [|split].
  - intro r. destruct (I1 r) as (_ & _ & _ & _ & Hids & Hle).
    split; assumption.
  - intros r Hown.
    destruct (I2 r Hown) as (_ & _ & _ & _ & new_toks & Hids & Hlen).
    split; [now exists new_toks|].
    intro E. rewrite Hlen, Hids, E. unfold len. rewrite length_app. lia.
  - exact I5.
Qed.

(** * [update_output] call after call *)

Lemma len_nonneg_aux {A} (l : list A) : 0 <= len l.
Proof. unfold len. lia. Qed.

Lemma combine_app_same {A B} (l1 : list A) :
  forall (t1 : list B) l2 t2,
    length l1 = length t1 ->
    combine (l1 ++ l2) (t1 ++ t2) = combine l1 t1 ++ combine l2 t2.
Proof.
  induction l1 as [|a l1 IH]; intros [|b t1] l2 t2 Hlen; try easy.
  cbn. f_equal. apply IH. now inversion Hlen.
Qed.

Lemma heap_after_app ls p1 :
  forall p2 (h : heap),
    heap_after ls (p1 ++ p2) h = heap_after ls p2 (heap_after ls p1 h).
Proof.
  induction p1 as [|[r tok] p1 IH]; intros p2 h; [reflexivity|].
  cbn. apply IH.
Qed.

Lemma finished_after_app ls p1 :
  forall p2 (h : heap),
    finished_after ls (p1 ++ p2) h =
    finished_after ls p1 h ++ finished_after ls p2 (heap_after ls p1 h).
Proof.
  induction p1 as [|[r tok] p1 IH]; intros p2 h; [reflexivity|].
  cbn. rewrite IH. now rewrite app_assoc.
Qed.

(** X4.  One call on the concatenation of two batches does what two
    calls in a row do: the heap is the same and the finished list of the
    single call is the two finished lists in a row, however the output
    lists are shared. *)
Theorem update_output_app ls reqs1 toks1 reqs2 toks2 (h : heap) :
  length reqs1 = length toks1 ->
  length reqs2 = length toks2 ->
  (forall r, In r (reqs1 ++ reqs2) -> initialised (h r)) ->
  exists h1 fin1 h2 fin2,
    update_output ls reqs1 toks1 h = (h1, Ret fin1) /\
    update_output ls reqs2 toks2 h1 = (h2, Ret fin2) /\
    update_output ls (reqs1 ++ reqs2) (toks1 ++ toks2) h
    = (h2, Ret (fin1 ++ fin2)).
Proof.
  intros Hl1 Hl2 Hi.
  exists (heap_after ls (combine reqs1 toks1) h),
         (finished_after ls (combine reqs1 toks1) h),
         (heap_after ls (combine reqs2 toks2)
                     (heap_after ls (combine reqs1 toks1) h)),
         (finished_after ls (combine reqs2 toks2)
                         (heap_after ls (combine reqs1 toks1) h)).
  split; [|split].
  - apply update_output_run; [exact Hl1|].
    intros r Hr. apply Hi, in_or_app. now left.
  - apply update_output_run; [exact Hl2|].
    intros r Hr. apply heap_after_initialised, Hi, in_or_app. now right.
  - rewrite update_output_run.
    + rewrite combine_app_same by exact Hl1.
      now rewrite heap_after_app, finished_after_app.
    + rewrite !length_app. congruence.
    + exact Hi.
Qed.

Lemma update_output_app_witness :
  exists h1 fin1 h2 fin2,
    update_output shared_01 [0%nat] [7] twin_heap = (h1, Ret fin1) /\
    update_output shared_01 [1%nat] [8] h1 = (h2, Ret fin2) /\
    update_output shared_01 [0; 1]%nat [7; 8] twin_heap
    = (h2, Ret (fin1 ++ fin2)).
Proof.
  apply (@update_output_app shared_01 [0%nat] [7] [1%nat] [8] twin_heap).
  - reflexivity.
  - reflexivity.
  - intros r [<-|[<-|[]]]; repeat split; discriminate.
Defined.

Lemma update_output_single ls r tok (h : heap) :
  initialised (h r) ->
  update_output ls [r] [tok] h =
  (pass ls r tok h, Ret (if reaches (h r) then [r] else [])).
Proof.
  intro Hi. rewrite update_output_run.
  - cbn. now rewrite app_nil_r.
  - reflexivity.
  - intros r' [<-|[]]. exact Hi.
Qed.





Lemma input_tokens_after pairs :
  forall (h h' : heap),
    NoDup (map fst pairs) ->
    (forall r tok, In (r, tok) pairs ->
                   h' r = advance r tok (h r) /\ 0 <= output_len (h r)) ->
    get_input_tokens h' (map fst pairs) = map snd pairs.
Proof.
  unfold get_input_tokens.
  induction pairs as [|[r tok] rest IH]; intros h h' Hnd Hall; [reflexivity|].
  cbn [map fst snd concat]. inversion Hnd as [|? ? _ Hnd']; subst.
  rewrite (IH h h' Hnd') by (intros; apply Hall; now right).
  destruct (Hall r tok (or_introl eq_refl)) as [Hr Hpos].
  rewrite Hr. cbn [output_len output_token_ids advance].
  destruct (Z.eqb_spec (output_len (h r) + 1) 0); [lia|].
  now rewrite last1_app.
Qed.

Lemma map_snd_combine {A B} (l : list A) :
  forall (l' : list B), length l = length l' -> map snd (combine l l') = l'.
Proof.
  induction l as [|a l IH]; intros [|b l'] Hlen; try easy.
  cbn. f_equal. apply IH. now inversion Hlen.
Qed.

(** X6.  After [update_output] on requests that hold pairwise distinct
    output lists (and so are pairwise distinct), with all their
    attributes and non-negative [output_len], the input tokens of the
    same requests for the next forward pass are exactly the tokens just
    given, in order. *)
Theorem input_tokens_after_update ls reqs toks (h : heap) :
  NoDup (map ls reqs) ->
  length reqs = length toks ->
  (forall r, In r reqs -> initialised (h r) /\ 0 <= output_len (h r)) ->
  get_input_tokens (fst (update_output ls reqs toks h)) reqs = toks.
Proof.
  intros Hnd Hlen Hall.
  rewrite update_output_run; [|exact Hlen|intros; now apply Hall].
  cbn [fst].
  pose proof (@input_tokens_after (combine reqs toks) h
                (heap_after ls (combine reqs toks) h)) as Hin.
  rewrite (map_fst_combine reqs toks Hlen) in Hin.
  rewrite (map_snd_combine reqs toks Hlen) in Hin.
  apply Hin.
  - eapply NoDup_map_inv, Hnd.
  - intros r tok Hrt. split.
    + apply heap_after_nodup; [now rewrite map_fst_combine | exact Hrt].
    + apply Hall. eapply in_combine_l, Hrt.
Qed.

Lemma input_tokens_after_update_witness :
  get_input_tokens
    (fst (update_output own_lists [0; 1]%nat [7; 8] example_heap))
    [0; 1]%nat = [7; 8].
Proof.
  apply input_tokens_after_update.
  - repeat constructor; cbn; intuition discriminate.
  - reflexivity.
  - intros r [<-|[<-|[]]]; cbn; repeat split; try discriminate; lia.
Defined.

(** * [create_request] *)

(** X1.  A request made by [create_request] has all its attributes, and
    its two length counters are the lengths of the two token lists (an
    absent output list counts as empty).  With [quick_stop] it is not
    finished and its first [update_output] finishes it: it is returned
    and its event is set.  Without [quick_stop], and with fewer than
    [10^9 - 1] output ids given, it is not finished and its first
    [update_output] does not return it.  This holds whether or not
    another request holds the list of output ids it was given. *)
Theorem create_request_life ls prompt req_id outs quick_stop r tok
  (h : heap) :
  h r = create_request prompt req_id outs quick_stop ->
  let given := match outs with Some l => l | None => [] end in
  initialised (h r) /\
  prompt_len (h r) = len prompt /\
  output_len (h r) = len given /\
  output_token_ids (h r) = given /\
  seq_len (h r) = len prompt + len given /\
  request_id (h r) = req_id /\
  (quick_stop = true ->
   is_finished r h = (h, Ret false) /\
   exists h',
     update_output ls [r] [tok] h = (h', Ret [r]) /\
     finished_event (h' r) = Some true /\
     output_token_ids (h' r) = given ++ [tok]) /\
  (quick_stop = false -> len given + 1 < 10 ^ 9 ->
   is_finished r h = (h, Ret false) /\
   exists h',
     update_output ls [r] [tok] h = (h', Ret []) /\
     finished_event (h' r) = Some false /\
     output_token_ids (h' r) = given ++ [tok]).
Proof.
  intros Hr given.
  assert (Hg : output_token_ids (h r) = given /\ output_len (h r) = len given).
  { rewrite Hr. subst given. destruct outs as [[|t l]|]; now cbn. }
  destruct Hg as [Hids Hol].
  assert (Hi : initialised (h r)).
  { rewrite Hr. repeat split; discriminate. }
  split; [exact Hi|]. split; [now rewrite Hr|]. split; [exact Hol|].
  split; [exact Hids|]. split.
  { unfold seq_len. rewrite Hol. now rewrite Hr. }
  split; [now rewrite Hr|].
  assert (Hm : max_output_len (h r) =
               Some (if quick_stop then len given + 1 else 10 ^ 9)).
  { rewrite <- Hol. rewrite Hr. reflexivity. }
  assert (He : finished_event (h r) = Some false) by now rewrite Hr.
  assert (Hfin : forall b, (output_len (h r) =?
                   (if quick_stop then len given + 1 else 10 ^ 9)) = b ->
                 is_finished r h = (h, Ret b)).
  { intros b Eb. unfold is_finished. rewrite bind_read.
    rewrite (@bind_getattr _ _ r max_output_len _ _ _ Hm).
    unfold ret. now rewrite Eb. }
  split.
  - intros ->. split.
    + apply Hfin. apply Z.eqb_neq. lia.
    + rewrite (@update_output_single ls r tok h Hi).
      eexists. split; [|split].
      * unfold reaches. rewrite Hm, Hol, Z.eqb_refl. reflexivity.
      * rewrite pass_same. unfold advance, reaches. cbn.
        now rewrite Hm, Hol, Z.eqb_refl.
      * rewrite pass_same. cbn. now rewrite Hids.
  - intros -> Hlt.
    assert (E : (output_len (h r) + 1 =? 10 ^ 9) = false)
      by (apply Z.eqb_neq; lia).
    split.
    + apply Hfin. apply Z.eqb_neq. lia.
    + rewrite (@update_output_single ls r tok h Hi).
      eexists. split; [|split].
      * unfold reaches. rewrite Hm, E. reflexivity.
      * rewrite pass_same. unfold advance, reaches. cbn.
        now rewrite Hm, E, He.
      * rewrite pass_same. cbn. now rewrite Hids.
Qed.

Lemma create_request_life_witness :
  let h := upd example_heap 5%nat (create_request [1; 2; 3] 6 None true) in
  exists h',
    update_output own_lists [5%nat] [9] h = (h', Ret [5%nat]) /\
    finished_event (h' 5%nat) = Some true.
Proof.
  intro h.
  destruct (@create_request_life own_lists [1; 2; 3] 6 None true 5%nat 9 h)
    as (_ & _ & _ & _ & _ & _ & Hquick & _).
  - reflexivity.
  - destruct (Hquick eq_refl) as (_ & h' & Hrun & Hev & _).
    exists h'. split; [exact Hrun | exact Hev].
Defined.

(** * More on the serialisation view *)

(** X7.  The view never carries both prompt ids and an output id, and
    never more than one output id; for a request with non-negative
    [output_len] its two lists together are the input tokens of the
    request; and serialising a request rebuilt from a view gives that
    view again. *)
Theorem getstate_view_shape (h : heap) (r : ref) :
  let view := __getstate__ (h r) in
  (st_prompt_token_ids view = [] \/ st_output_token_ids view = []) /\
  (length (st_output_token_ids view) <= 1)%nat /\
  (0 <= output_len (h r) ->
   st_prompt_token_ids view ++ st_output_token_ids view
   = get_input_tokens h [r]) /\
  __getstate__ (reconstruct view) = view.
Proof.
  cbn zeta. unfold __getstate__, reconstruct, __setstate__, get_input_tokens.
  cbn [st_prompt_token_ids st_output_token_ids st_prompt_len st_output_len
       st_request_id prompt_token_ids output_token_ids prompt_len
       output_len request_id map concat].
  assert (Hl1 : forall l : list Z, (length (last1 l) <= 1)%nat).
  { intro l. unfold last1. destruct (rev l); cbn; lia. }
  destruct (Z.eqb_spec (output_len (h r)) 0) as [E|E];
    destruct (Z.gtb_spec (output_len (h r)) 0) as [G|G];
    try lia; repeat split; auto; try (now right); try (intro; lia);
    rewrite ?app_nil_r, ?last1_idem; try reflexivity; cbn; try lia.
Qed.

(** * More on the sub-batch *)

(** X8.  [pop_pref] raises [IndexError] exactly when [get_num_prefs()]
    is 0, and [pop_cdec] exactly when the CPU-decode list is empty;
    otherwise each removes one request, and the prefill count (or the
    CPU-decode count) and [x] go down by 1. *)
Theorem pops_raise_on_empty (h : heap) (sb : SubBatch.t) :
  (SubBatch.get_num_prefs sb = 0 ->
   SubBatch.pop_pref h sb = Raise IndexError) /\
  (SubBatch.get_num_prefs sb <> 0 ->
   exists sb' out,
     SubBatch.pop_pref h sb = Ret (sb', out) /\
     SubBatch.get_num_prefs sb' = SubBatch.get_num_prefs sb - 1 /\
     SubBatch.__len__ sb' = SubBatch.__len__ sb - 1) /\
  (SubBatch.cdec_reqs sb = [] ->
   SubBatch.pop_cdec h sb = Raise IndexError) /\
  (SubBatch.cdec_reqs sb <> [] ->
   exists sb',
     SubBatch.pop_cdec h sb = Ret sb' /\
     len (SubBatch.cdec_reqs sb') = len (SubBatch.cdec_reqs sb) - 1 /\
     SubBatch.__len__ sb' = SubBatch.__len__ sb - 1).
Proof.
  unfold SubBatch.get_num_prefs, SubBatch.__len__.
  split; [|split; [|split]].
  - intro Hz.
    pose proof (len_nonneg_aux (SubBatch.gprf_reqs sb)).
    pose proof (len_nonneg_aux (SubBatch.cprf_reqs sb)).
    unfold SubBatch.pop_pref.
    destruct (SubBatch.cprf_reqs sb) as [|c cs];
      [|rewrite len_cons in *; pose proof (len_nonneg_aux cs); lia].
    destruct (SubBatch.gprf_reqs sb) as [|g gs];
      [reflexivity|rewrite len_cons in *; pose proof (len_nonneg_aux gs); lia].
  - intro Hnz.
    assert (Hne : SubBatch.gprf_reqs sb <> [] \/ SubBatch.cprf_reqs sb <> []).
    { destruct (SubBatch.gprf_reqs sb); [|left; discriminate].
      destruct (SubBatch.cprf_reqs sb); [|right; discriminate].
      now cbn in Hnz. }
    destruct (SubBatch.pop_pref h sb) as [[sb' [req is_gpu]]|e] eqn:Epop.
    + exists sb', (req, is_gpu). split; [reflexivity|].
      destruct (pop_pref_inv _ _ Epop) as (Hl & _ & _ & Hpd).
      rewrite Hpd. sb_simpl. destruct is_gpu.
      * destruct Hl as (Hc0 & Hg & Hc1). rewrite Hc0, Hc1, Hg, len_snoc.
        split; lia.
      * destruct Hl as (Hc & Hg). rewrite Hc, Hg, len_snoc. split; lia.
    + exfalso. unfold SubBatch.pop_pref in Epop.
      destruct (SubBatch.cprf_reqs sb) as [|c cs] eqn:Ec.
      * destruct Hne as [Hg|Hc]; [|easy].
        destruct (nonempty_snoc Hg) as (l & a & El).
        now rewrite El, list_pop_app in Epop.
      * destruct (@nonempty_snoc _ (c :: cs)) as (l & a & El); [easy|].
        now rewrite El, list_pop_app in Epop.
  - intro Hnil. unfold SubBatch.pop_cdec. now rewrite Hnil.
  - intro Hne. destruct (nonempty_snoc Hne) as (l & a & El).
    unfold SubBatch.pop_cdec. rewrite El, list_pop_app.
    eexists. split; [reflexivity|]. sb_simpl. rewrite len_snoc. split; lia.
Qed.

Lemma rev_snoc {A} (l : list A) a : rev (l ++ [a]) = a :: rev l.
Proof. now rewrite rev_app_distr. Qed.

(** X9.  Popping as many times as there are prefill requests always
    succeeds: it returns first the CPU-prefill requests, last added
    first, each with flag false, then the GPU-prefill requests, last
    added first, each with flag true; it leaves both prefill lists empty
    and the decode lists alone, takes the popped requests off [x] and
    their prompt lengths off [s]; one more [pop_pref] raises
    [IndexError]. *)
Theorem pop_prefs_drains (h : heap) (sb : SubBatch.t) :
  exists sb',
    pop_prefs h (length (SubBatch.cprf_reqs sb) +
                 length (SubBatch.gprf_reqs sb)) sb
    = Ret (sb', map (fun req => (req, false)) (rev (SubBatch.cprf_reqs sb)) ++
                map (fun req => (req, true)) (rev (SubBatch.gprf_reqs sb))) /\
    SubBatch.cprf_reqs sb' = [] /\
    SubBatch.gprf_reqs sb' = [] /\
    SubBatch.gdec_reqs sb' = SubBatch.gdec_reqs sb /\
    SubBatch.cdec_reqs sb' = SubBatch.cdec_reqs sb /\
    SubBatch.__len__ sb' = SubBatch.__len__ sb - SubBatch.get_num_prefs sb /\
    BatchPerfData.s (SubBatch.perfdata sb') =
      BatchPerfData.s (SubBatch.perfdata sb)
      - sum_list (prompt_lens h (SubBatch.gprf_reqs sb))
      - sum_list (prompt_lens h (SubBatch.cprf_reqs sb)) /\
    SubBatch.pop_pref h sb' = Raise IndexError.
Proof.
  unfold SubBatch.__len__, SubBatch.get_num_prefs.
  remember (length (SubBatch.cprf_reqs sb) + length (SubBatch.gprf_reqs sb))%nat
    as n eqn:En.
  revert sb En. induction n as [|n IH]; intros sb En.
  - destruct (SubBatch.cprf_reqs sb) as [|c cs] eqn:Ec; [|discriminate].
    destruct (SubBatch.gprf_reqs sb) as [|g gs] eqn:Eg; [|discriminate].
    exists sb. cbn [pop_prefs rev map app]. rewrite Ec, Eg.
    repeat split; try (unfold len, sum_list; cbn; lia).
    unfold SubBatch.pop_pref. now rewrite Ec, Eg.
  - destruct (SubBatch.pop_pref h sb) as [[sb1 [req is_gpu]]|e] eqn:Epop.
    2:{ exfalso. unfold SubBatch.pop_pref in Epop.
        destruct (SubBatch.cprf_reqs sb) as [|c cs] eqn:Ec.
        - destruct (SubBatch.gprf_reqs sb) as [|g gs] eqn:Eg; [discriminate|].
          destruct (@nonempty_snoc _ (g :: gs)) as (l & a & El); [easy|].
          now rewrite El, list_pop_app in Epop.
        - destruct (@nonempty_snoc _ (c :: cs)) as (l & a & El); [easy|].
          now rewrite El, list_pop_app in Epop. }
    destruct (pop_pref_inv _ _ Epop) as (Hl & Hgd & Hcd & Hpd).
    cbn [pop_prefs]. rewrite Epop.
    destruct is_gpu.
    + destruct Hl as (Hc0 & Hg & Hc1).
      destruct (IH sb1) as (sb' & Hrun & H1 & H2 & H3 & H4 & H5 & H6 & H7).
      { rewrite Hc1. rewrite Hc0, Hg, length_app in En. cbn in *. lia. }
      exists sb'. rewrite Hrun, Hc1, Hc0, Hg, rev_snoc.
      rewrite Hc1 in H5, H6. rewrite Hpd in H5, H6. sb_simpl.
      rewrite sum_prompt_lens_snoc, len_snoc.
      cbn [rev map app] in *.
      repeat split; try assumption; try congruence.
      * rewrite H5. unfold len. cbn [length]. lia.
      * rewrite H6. unfold prompt_lens at 2 4, sum_list at 2 4.
        cbn [map fold_left]. lia.
    + destruct Hl as (Hc & Hg).
      destruct (IH sb1) as (sb' & Hrun & H1 & H2 & H3 & H4 & H5 & H6 & H7).
      { rewrite Hg. rewrite Hc, length_app in En. cbn in *. lia. }
      exists sb'. rewrite Hrun, Hc, rev_snoc.
      rewrite Hg in Hrun, H5, H6. rewrite Hpd in H5, H6. sb_simpl.
      rewrite sum_prompt_lens_snoc, len_snoc.
      cbn [rev map app] in *.
      repeat split; try assumption; try congruence.
      * rewrite H5. lia.
      * rewrite H6. lia.
Qed.

Lemma sum_get_lens_snoc h l req :
  sum_list (get_lens h (l ++ [req])) = sum_list (get_lens h l) + seq_len (h req).
Proof.
  rewrite get_lens_app, sum_list_app. cbn [get_lens map].
  rewrite sum_list_cons. unfold sum_list. cbn. lia.
Qed.

(** The decode side of the accumulator of a composed sub-batch. *)
Lemma composed_decode_side (h : heap) (p : PerfPredictor) (sb : SubBatch.t) :
  composed h p sb ->
  let pd := SubBatch.perfdata sb in
  BatchPerfData.n_g pd = sum_list (get_lens h (SubBatch.gdec_reqs sb)) /\
  BatchPerfData.x_c pd = len (SubBatch.cdec_reqs sb) /\
  BatchPerfData.n_c pd = sum_list (get_lens h (SubBatch.cdec_reqs sb)) /\
  BatchPerfData.predictor pd = p /\
  BatchPerfData.lnch_T pd = get_lnch_T p /\
  BatchPerfData.gdec_T pd =
    match SubBatch.gdec_reqs sb with
    | [] => 0%float
    | _ :: _ => get_gdec_T p (sum_list (get_lens h (SubBatch.gdec_reqs sb)))
    end.
Proof.
  intros Hc. cbv zeta.
  induction Hc as [ | sb req is_gpu Hc IH | sb sb' [req is_gpu] Hc IH Hpop
                  | sb req Hc IH | sb req Hc IH | sb sb' Hc IH Hpop ].
  - cbn. now repeat split.
  - destruct IH as (H1 & H2 & H3 & H4 & H5 & H6). sb_simpl.
    now repeat split.
  - destruct IH as (H1 & H2 & H3 & H4 & H5 & H6).
    destruct (pop_pref_inv _ _ Hpop) as (_ & Hgd & Hcd & Hpd).
    rewrite Hpd, Hgd, Hcd. sb_simpl. now repeat split.
  - destruct IH as (H1 & H2 & H3 & H4 & H5 & H6). sb_simpl.
    rewrite sum_get_lens_snoc, H1, H4.
    repeat split; try assumption; try reflexivity.
    now destruct (SubBatch.gdec_reqs sb).
  - destruct IH as (H1 & H2 & H3 & H4 & H5 & H6). sb_simpl.
    rewrite sum_get_lens_snoc, len_snoc, H2, H3. now repeat split.
  - destruct IH as (H1 & H2 & H3 & H4 & H5 & H6).
    destruct (pop_cdec_inv _ _ Hpop) as (req & Hcd & _ & _ & Hgd & Hpd).
    rewrite Hpd, Hgd. sb_simpl.
    rewrite Hcd, sum_get_lens_snoc, len_snoc in *.
    repeat split; try assumption; lia.
Qed.

(** X10.  In every sub-batch built by the add and pop operations, [n_g]
    is the sum of [seq_len] over the GPU-decode list, [x_c] the length of
    the CPU-decode list and [n_c] the sum of [seq_len] over it. *)
Theorem composed_decode_totals
  (h : heap) (p : PerfPredictor) (sb : SubBatch.t) :
  composed h p sb ->
  BatchPerfData.n_g (SubBatch.perfdata sb) =
    sum_list (get_lens h (SubBatch.gdec_reqs sb)) /\
  BatchPerfData.x_c (SubBatch.perfdata sb) = len (SubBatch.cdec_reqs sb) /\
  BatchPerfData.n_c (SubBatch.perfdata sb) =
    sum_list (get_lens h (SubBatch.cdec_reqs sb)).
Proof.
  intro Hc. destruct (composed_decode_side Hc) as (H1 & H2 & H3 & _).
  now repeat split.
Qed.

Lemma composed_decode_totals_witness :
  let sb := SubBatch.add_cdec prompts_heap
              (SubBatch.add_gdec prompts_heap
                 (SubBatch.init ZeroPerfPredictor) 0%nat) 1%nat in
  BatchPerfData.n_g (SubBatch.perfdata sb) = 100 /\
  BatchPerfData.x_c (SubBatch.perfdata sb) = 1 /\
  BatchPerfData.n_c (SubBatch.perfdata sb) = 50.
Proof.
  intro sb.
  apply (@composed_decode_totals prompts_heap ZeroPerfPredictor sb).
  apply composed_add_cdec, composed_add_gdec, composed_init.
Defined.

(** X11.  The cost terms of a composed sub-batch do not depend on how it
    was composed, only on what it holds: the cached [gdec_T] is the
    predictor's answer for the current sum of the GPU-decode lengths (0
    while there is no GPU-decode request), [lnch_T] is the predictor's
    launch overhead, [cdec_T] is its answer for the current CPU-decode
    count and length sum, and [linr_T] its answer for the current
    iteration width. *)
Theorem composed_cost_terms
  (h : heap) (p : PerfPredictor) (sb : SubBatch.t) :
  composed h p sb ->
  let pd := SubBatch.perfdata sb in
  BatchPerfData.gdec_T pd =
    match SubBatch.gdec_reqs sb with
    | [] => 0%float
    | _ :: _ => get_gdec_T p (sum_list (get_lens h (SubBatch.gdec_reqs sb)))
    end /\
  BatchPerfData.lnch_T pd = get_lnch_T p /\
  BatchPerfData.cdec_T pd =
    get_cdec_T p (len (SubBatch.cdec_reqs sb))
               (sum_list (get_lens h (SubBatch.cdec_reqs sb))) /\
  BatchPerfData.cpu_time pd =
    (get_cdec_T p (len (SubBatch.cdec_reqs sb))
                (sum_list (get_lens h (SubBatch.cdec_reqs sb)))
     + get_lnch_T p)%float /\
  BatchPerfData.linr_T pd =
    get_linr_T p
      (sum_list (prompt_lens h (SubBatch.gprf_reqs sb ++
                                SubBatch.cprf_reqs sb)) +
       (len (SubBatch.gdec_reqs sb) + len (SubBatch.cdec_reqs sb))).
Proof.
  intro Hc. cbv zeta.
  destruct (composed_decode_side Hc) as (H1 & H2 & H3 & H4 & H5 & H6).
  destruct (composed_invariant Hc) as (_ & Hs).
  unfold BatchPerfData.cpu_time, BatchPerfData.cdec_T, BatchPerfData.linr_T.
  rewrite H2, H3, H4, H5, H6, Hs, prompt_lens_app, sum_list_app.
  now repeat split.
Qed.

Lemma composed_cost_terms_witness :
  let sb := SubBatch.add_gdec prompts_heap
              (SubBatch.add_gdec prompts_heap
                 (SubBatch.init drift_predictor) 0%nat) 1%nat in
  BatchPerfData.gdec_T (SubBatch.perfdata sb) = get_gdec_T drift_predictor 150.
Proof.
  intro sb.
  destruct (@composed_cost_terms prompts_heap drift_predictor sb)
    as (Hg & _).
  - apply composed_add_gdec, composed_add_gdec, composed_init.
  - exact Hg.
Defined.

(** X12.  No operation retracts a GPU-decode request: after any number of
    adds and pops the GPU-decode list is the old one with requests
    appended, [n_g] has grown by their sequence lengths, and the predictor
    and the launch overhead are the same. *)
Theorem gdec_never_retracted (h : heap) (sb sb' : SubBatch.t) :
  sb_steps h sb sb' ->
  exists added,
    SubBatch.gdec_reqs sb' = SubBatch.gdec_reqs sb ++ added /\
    BatchPerfData.n_g (SubBatch.perfdata sb') =
      BatchPerfData.n_g (SubBatch.perfdata sb) + sum_list (get_lens h added) /\
    BatchPerfData.predictor (SubBatch.perfdata sb') =
      BatchPerfData.predictor (SubBatch.perfdata sb) /\
    BatchPerfData.lnch_T (SubBatch.perfdata sb') =
      BatchPerfData.lnch_T (SubBatch.perfdata sb).
Proof.
  induction 1 as [sb | sb sb1 sb2 Hsteps IH Hstep].
  - exists []. rewrite app_nil_r. unfold sum_list. cbn.
    repeat split; lia.
  - destruct IH as (added & Hl & Hn & Hp & Hln).
    destruct Hstep as [sb1 req is_gpu | sb1 sb2 [req is_gpu] Hpop
                      | sb1 req | sb1 req | sb1 sb2 Hpop].
    + exists added. sb_simpl. now repeat split.
    + destruct (pop_pref_inv _ _ Hpop) as (_ & Hgd & _ & Hpd).
      exists added. rewrite Hpd, Hgd. sb_simpl. now repeat split.
    + exists (added ++ [req]). sb_simpl.
      rewrite Hl, Hn, sum_get_lens_snoc, app_assoc.
      repeat split; try assumption; lia.
    + exists added. sb_simpl. now repeat split.
    + destruct (pop_cdec_inv _ _ Hpop) as (req & _ & _ & _ & Hgd & Hpd).
      exists added. rewrite Hpd, Hgd. sb_simpl. now repeat split.
Qed.

Lemma gdec_never_retracted_witness :
  let sb := SubBatch.add_gdec prompts_heap
              (SubBatch.init ZeroPerfPredictor) 0%nat in
  exists sb' added,
    SubBatch.pop_cdec prompts_heap (SubBatch.add_cdec prompts_heap sb 1%nat)
    = Ret sb' /\
    SubBatch.gdec_reqs sb' = SubBatch.gdec_reqs sb ++ added.
Proof.
  intro sb.
  destruct (SubBatch.pop_cdec prompts_heap
              (SubBatch.add_cdec prompts_heap sb 1%nat))
    as [sb'|e] eqn:Epop; [|discriminate Epop].
  destruct (@gdec_never_retracted prompts_heap sb sb')
    as (added & Hl & _).
  - eapply steps_then; [eapply steps_then; [apply steps_refl|]|].
    + apply (step_add_cdec prompts_heap sb 1%nat).
    + apply step_pop_cdec. exact Epop.
  - exists sb', added. split; [reflexivity | exact Hl].
Defined.

(** * More on finalisation *)

(** The two rational tests of the loop condition, in integers. *)
Lemma Qdiv_le_Z a b c :
  0 < c -> ((inject_Z a / inject_Z c <= inject_Z b)%Q <-> a <= b * c).
Proof.
  intro Hc. destruct c as [|c|c]; try lia.
  unfold Qle, Qdiv, Qmult, Qinv, inject_Z. cbn. split; intro H; nia.
Qed.

Lemma Qmul_div_lt_Z k a b c :
  0 < c ->
  ((inject_Z k * (inject_Z a / inject_Z c) < inject_Z b)%Q <-> k * a < b * c).
Proof.
  intro Hc. destruct c as [|c|c]; try lia.
  unfold Qlt, Qdiv, Qmult, Qinv, inject_Z. cbn. split; intro H; nia.
Qed.

Lemma may_halve_Z kv sm mx c :
  64 <= c / 2 ->
  (may_halve kv sm mx c <-> kv * sm < 1024 * c /\ mx <= 128 * (c / 2)).
Proof.
  intro Hc.
  assert (0 < c).
  { destruct (Z_lt_le_dec 0 c) as [Hp | Hn]; [exact Hp | exfalso].
    assert (c / 2 <= 0) by (apply Z.div_le_upper_bound; lia). lia. }
  unfold may_halve.
  change 1024%Q with (inject_Z 1024). change 128%Q with (inject_Z 128).
  rewrite Qmul_div_lt_Z by assumption. rewrite Qdiv_le_Z by lia. tauto.
Qed.

Lemma candidate_succ k : (k < 5)%nat -> candidate k = 2 * candidate (S k).
Proof.
  intro Hk. do 5 (destruct k as [|k]; [reflexivity|]). lia.
Qed.

(** What the loop guarantees about the size it stops at. *)
Lemma sizing_loop_bounds kv sm mx :
  let sbs := sizing_loop kv sm mx 2048 in
  (sbs < 2048 -> kv * sm < 2048 * sbs /\ mx <= 128 * sbs) /\
  (64 < sbs -> 1024 * sbs <= kv * sm \/ 64 * sbs < mx) /\
  (kv * sm <= 0 -> mx <= 0 -> sbs = 64).
Proof.
  cbv zeta.
  destruct (sizing_loop_from_seed kv sm mx) as (k & Hk & Hres & Hbefore & Hstop).
  rewrite Hres.
  assert (Hvals : forall j, (j <= 5)%nat -> 64 <= candidate j <= 2048 /\
                            ((j < 5)%nat -> 64 <= candidate j / 2) /\
                            2 * (candidate j / 2) = candidate j).
  { intros j Hj. do 6 (destruct j as [|j]; [cbv; intuition (discriminate || lia)|]).
    lia. }
  split; [|split].
  - intro Hlt. destruct k as [|k]; [change (candidate 0) with 2048 in Hlt; lia|].
    assert (Hprev : sizing_cond kv sm mx (candidate k) = true)
      by (apply Hbefore; lia).
    apply sizing_cond_spec in Hprev.
    destruct (Hvals k ltac:(lia)) as (_ & Hhalf & Heven).
    apply may_halve_Z in Hprev; [|apply Hhalf; lia].
    rewrite (candidate_succ (k := k)) in Hprev by lia.
    rewrite (Z.mul_comm 2 (candidate (S k))), Z.div_mul in Hprev by lia. lia.
  - intro Hgt.
    destruct (Nat.eq_dec k 5) as [->|Hne];
      [change (candidate 5) with 64 in Hgt; lia|].
    destruct (Hvals k Hk) as (_ & Hhalf & Heven).
    assert (Hh : 64 <= candidate k / 2) by (apply Hhalf; lia).
    destruct (Z_lt_le_dec (kv * sm) (1024 * candidate k)) as [H1|H1];
      [|now left].
    destruct (Z_le_gt_dec mx (128 * (candidate k / 2))) as [H2|H2];
      [|right; lia].
    exfalso.
    assert (Hm : may_halve kv sm mx (candidate k))
      by (apply may_halve_Z; [exact Hh | split; assumption]).
    apply sizing_cond_spec in Hm. congruence.
  - intros Hsm Hmx.
    destruct (Nat.eq_dec k 5) as [->|Hne]; [reflexivity|exfalso].
    destruct (Hvals k Hk) as (Hr & Hhalf & Heven).
    assert (Hh : 64 <= candidate k / 2) by (apply Hhalf; lia).
    assert (Hm : may_halve kv sm mx (candidate k)).
    { apply may_halve_Z; [exact Hh | split; lia]. }
    apply sizing_cond_spec in Hm. congruence.
Qed.

(** X13.  About the stored paged-attention sizes: if the block size was
    halved at all ([seq_block_size < 2048]) then the longest GPU-decode
    sequence needs at most 128 blocks and
    [num_kv_heads * sum_gdec_toks < 2048 * seq_block_size]; if it stayed
    above the floor 64 then halving was refused because
    [num_kv_heads * sum_gdec_toks >= 1024 * seq_block_size] or because the
    longest GPU-decode sequence is longer than [64 * seq_block_size]. *)
Theorem seq_block_size_bounds
  (h : heap) (sb : SubBatch.t) (cfg : LlamaModelConfig) :
  (forall req,
      In req (SubBatch.cprf_reqs sb ++ SubBatch.gprf_reqs sb ++
              SubBatch.gdec_reqs sb ++ SubBatch.cdec_reqs sb) ->
      0 <= request_id (h req)) ->
  let sum_gdec_toks := sum_list (get_lens h (SubBatch.gdec_reqs sb)) in
  let max_gdec_toks := max_list (get_lens h (SubBatch.gdec_reqs sb)) in
  exists fin,
    SubBatch.set_model_forward_args h sb cfg = Ret fin /\
    (seq_block_size fin < 2048 ->
     num_seq_blocks fin <= 128 /\
     num_kv_heads cfg * sum_gdec_toks < 2048 * seq_block_size fin) /\
    (64 < seq_block_size fin ->
     1024 * seq_block_size fin <= num_kv_heads cfg * sum_gdec_toks \/
     64 * seq_block_size fin < max_gdec_toks).
Proof.
  intros Hids sm mx.
  apply ids_assigned_spec in Hids.
  unfold SubBatch.set_model_forward_args. rewrite Hids.
  eexists. split; [reflexivity|].
  cbn [seq_block_size num_seq_blocks]. rewrite gdec_slice. fold sm mx.
  destruct (sizing_loop_bounds (num_kv_heads cfg) sm mx) as (Hlow & Hhigh & _).
  cbv zeta in Hlow, Hhigh.
  destruct (sizing_loop_from_seed (num_kv_heads cfg) sm mx)
    as (k & Hk & Hres & _).
  destruct (candidate_values Hk) as (_ & _ & Hrange).
  rewrite <- Hres in Hrange.
  split; [|exact Hhigh].
  intro Hlt. destruct (Hlow Hlt) as [Hkv Hmx]. split; [|exact Hkv].
  assert ((mx + sizing_loop (num_kv_heads cfg) sm mx 2048 - 1)
          / sizing_loop (num_kv_heads cfg) sm mx 2048 < 129).
  { apply Z.div_lt_upper_bound; lia. }
  lia.
Qed.

Lemma seq_block_size_bounds_witness :
  let sb := SubBatch.add_gdec prompts_heap
              (SubBatch.init ZeroPerfPredictor) 0%nat in
  exists fin,
    SubBatch.set_model_forward_args prompts_heap sb {| num_kv_heads := 8 |}
    = Ret fin /\
    (seq_block_size fin < 2048 -> num_seq_blocks fin <= 128).
Proof.
  intro sb.
  destruct (@seq_block_size_bounds prompts_heap sb {| num_kv_heads := 8 |})
    as (fin & Hrun & Hlow & _).
  - intros req _. unfold prompts_heap. cbn. lia.
  - exists fin. split; [exact Hrun|]. intro Hlt. now apply Hlow.
Defined.

(** X14.  A sub-batch without GPU-decode requests is finalised with the
    smallest block size, 64, and no sequence block at all, whatever the
    number of key-value heads. *)
Theorem no_gdec_smallest_blocks
  (h : heap) (sb : SubBatch.t) (cfg : LlamaModelConfig) :
  SubBatch.gdec_reqs sb = [] ->
  (forall req,
      In req (SubBatch.cprf_reqs sb ++ SubBatch.gprf_reqs sb ++
              SubBatch.cdec_reqs sb) ->
      0 <= request_id (h req)) ->
  exists fin,
    SubBatch.set_model_forward_args h sb cfg = Ret fin /\
    seq_block_size fin = 64 /\
    num_seq_blocks fin = 0 /\
    num_gdecs fin = 0 /\
    sum_prgd_toks fin = sum_pref_toks fin.
Proof.
  intros Hnil Hids.
  assert (Hids' : forall req,
             In req (SubBatch.cprf_reqs sb ++ SubBatch.gprf_reqs sb ++
                     SubBatch.gdec_reqs sb ++ SubBatch.cdec_reqs sb) ->
             0 <= request_id (h req)) by now rewrite Hnil.
  apply ids_assigned_spec in Hids'.
  unfold SubBatch.set_model_forward_args. rewrite Hids'.
  eexists. split; [reflexivity|].
  cbn [seq_block_size num_seq_blocks num_gdecs sum_prgd_toks sum_pref_toks].
  rewrite gdec_slice, Hnil.
  change (sum_list (get_lens h [])) with 0.
  change (max_list (get_lens h [])) with 0.
  destruct (sizing_loop_bounds (num_kv_heads cfg) 0 0) as (_ & _ & Hmin).
  cbv zeta in Hmin. rewrite Hmin by lia.
  repeat split; try reflexivity. unfold len. cbn. lia.
Qed.

Lemma no_gdec_smallest_blocks_witness :
  let sb := SubBatch.add_pref prompts_heap
              (SubBatch.init ZeroPerfPredictor) 0%nat true in
  exists fin,
    SubBatch.set_model_forward_args prompts_heap sb {| num_kv_heads := 8 |}
    = Ret fin /\
    seq_block_size fin = 64 /\ num_seq_blocks fin = 0.
Proof.
  intro sb.
  destruct (@no_gdec_smallest_blocks prompts_heap sb {| num_kv_heads := 8 |})
    as (fin & Hrun & Hs & Hn & _).
  - reflexivity.
  - intros req _. unfold prompts_heap. cbn. lia.
  - exists fin. split; [exact Hrun|]. split; [exact Hs | exact Hn].
Defined.

Lemma fold_max_ge (l : list Z) :
  forall a, a <= fold_left Z.max l a /\
            (forall b, In b l -> b <= fold_left Z.max l a).
Proof.
  induction l as [|c l IH]; intro a; cbn.
  - split; [lia | easy].
  - destruct (IH (Z.max a c)) as [H1 H2]. split; [lia|].
    intros b [<-|Hb]; [lia | now apply H2].
Qed.

Lemma max_list_ge (l : list Z) a : In a l -> a <= max_list l.
Proof.
  destruct l as [|c l]; [easy|]. cbn [max_list].
  destruct (fold_max_ge l c) as [H1 H2].
  intros [<-|Ha]; [exact H1 | now apply H2].
Qed.

Lemma pref_slice h (c g d t : list ref) :
  slice 0 (len c + len g) (get_lens h (c ++ g ++ d ++ t)) = get_lens h (c ++ g).
Proof.
  unfold slice. cbn [Z.to_nat skipn].
  rewrite app_assoc, get_lens_app.
  rewrite <- len_app, <- (len_get_lens h (c ++ g)).
  unfold len. rewrite Nat2Z.id. apply firstn_prefix.
Qed.

Lemma sum_seq_lens_prefill h (l : list ref) :
  (forall req, In req l -> output_len (h req) = 0) ->
  sum_list (get_lens h l) = sum_list (prompt_lens h l).
Proof.
  induction l as [|a l IH]; intro Hall; [reflexivity|].
  cbn [get_lens prompt_lens map]. rewrite !sum_list_cons.
  fold (get_lens h l). fold (prompt_lens h l).
  rewrite IH by (intros; apply Hall; now right).
  unfold seq_len. rewrite (Hall a) by now left. lia.
Qed.

(** X15.  The finalised arrays and token sums: the id and length arrays
    are the ids and [seq_len]s of [all_reqs] in order, as long as
    [all_reqs]; [sum_pref_toks] is the sum of [seq_len] over the two
    prefill lists and [max_pref_toks] bounds the [seq_len] of each prefill
    request; and for a sub-batch built by the add and pop operations whose
    prefill requests have generated nothing yet, the iteration width
    splits as [iter_width = sum_prgd_toks + num_cdecs]. *)
Theorem finalised_token_sums
  (h : heap) (p : PerfPredictor) (sb : SubBatch.t) (cfg : LlamaModelConfig) :
  composed h p sb ->
  (forall req,
      In req (SubBatch.cprf_reqs sb ++ SubBatch.gprf_reqs sb ++
              SubBatch.gdec_reqs sb ++ SubBatch.cdec_reqs sb) ->
      0 <= request_id (h req)) ->
  exists fin,
    SubBatch.set_model_forward_args h sb cfg = Ret fin /\
    seq_ids_list fin = get_ids h (all_reqs fin) /\
    seq_lens_list fin = get_lens h (all_reqs fin) /\
    len (seq_ids_list fin) = batch_size fin /\
    len (seq_lens_list fin) = batch_size fin /\
    sum_pref_toks fin =
      sum_list (get_lens h (SubBatch.cprf_reqs sb ++ SubBatch.gprf_reqs sb)) /\
    sum_prgd_toks fin = sum_pref_toks fin + len (SubBatch.gdec_reqs sb) /\
    (forall req,
        In req (SubBatch.cprf_reqs sb ++ SubBatch.gprf_reqs sb) ->
        seq_len (h req) <= max_pref_toks fin) /\
    ((forall req,
         In req (SubBatch.cprf_reqs sb ++ SubBatch.gprf_reqs sb) ->
         output_len (h req) = 0) ->
     iter_width fin = sum_prgd_toks fin + num_cdecs fin).
Proof.
  intros Hc Hids.
  destruct (composed_invariant Hc) as (Hx & Hs).
  apply ids_assigned_spec in Hids.
  unfold SubBatch.set_model_forward_args. rewrite Hids.
  eexists. split; [reflexivity|].
  cbn [seq_ids_list seq_lens_list all_reqs batch_size sum_pref_toks
       sum_prgd_toks max_pref_toks iter_width num_cdecs].
  rewrite pref_slice.
  split; [reflexivity|]. split; [reflexivity|].
  split; [|split; [|split; [reflexivity|split; [reflexivity|split]]]].
  - unfold get_ids, len. rewrite length_map, !length_app, Hx.
    unfold len. lia.
  - rewrite len_get_lens, !len_app, Hx. lia.
  - intros req Hin. apply max_list_ge. unfold get_lens.
    apply in_map_iff. now exists req.
  - intro Hpre. rewrite (sum_seq_lens_prefill h _ Hpre), Hs.
    rewrite prompt_lens_app, sum_list_app. lia.
Qed.

Lemma finalised_token_sums_witness :
  let sb := SubBatch.add_cdec prompts_heap
              (SubBatch.add_pref prompts_heap
                 (SubBatch.init ZeroPerfPredictor) 0%nat true) 1%nat in
  exists fin,
    SubBatch.set_model_forward_args prompts_heap sb {| num_kv_heads := 8 |}
    = Ret fin /\
    iter_width fin = sum_prgd_toks fin + num_cdecs fin.
Proof.
  intro sb.
  destruct (@finalised_token_sums prompts_heap ZeroPerfPredictor sb
              {| num_kv_heads := 8 |})
    as (fin & Hrun & _ & _ & _ & _ & _ & _ & _ & Hw).
  - apply composed_add_cdec, composed_add_pref, composed_init.
  - intros req _. unfold prompts_heap. cbn. lia.
  - exists fin. split; [exact Hrun|]. apply Hw. intros req _. reflexivity.
Defined.

Lemma get_input_tokens_app h l l' :
  get_input_tokens h (l ++ l') = get_input_tokens h l ++ get_input_tokens h l'.
Proof. unfold get_input_tokens. now rewrite map_app, concat_app. Qed.

Lemma input_tokens_prefill h (l : list ref) :
  (forall req, In req l ->
               output_len (h req) = 0 /\
               len (prompt_token_ids (h req)) = prompt_len (h req)) ->
  len (get_input_tokens h l) = sum_list (prompt_lens h l).
Proof.
  induction l as [|a l IH]; intro Hall; [reflexivity|].
  change (a :: l) with ([a] ++ l).
  rewrite get_input_tokens_app, len_app, IH
    by (intros; apply Hall; now right).
  cbn [app prompt_lens map]. rewrite sum_list_cons. fold (prompt_lens h l).
  destruct (Hall a (or_introl eq_refl)) as [Hz Hl].
  unfold get_input_tokens. cbn [map concat]. rewrite Hz, app_nil_r.
  cbn. now rewrite Hl.
Qed.

Lemma input_tokens_decode h (l : list ref) :
  (forall req, In req l ->
               output_len (h req) <> 0 /\ output_token_ids (h req) <> []) ->
  len (get_input_tokens h l) = len l.
Proof.
  induction l as [|a l IH]; intro Hall; [reflexivity|].
  change (a :: l) with ([a] ++ l).
  rewrite get_input_tokens_app, !len_app, IH
    by (intros; apply Hall; now right).
  destruct (Hall a (or_introl eq_refl)) as [Hnz Hne].
  unfold get_input_tokens. cbn [map concat]. rewrite app_nil_r.
  apply Z.eqb_neq in Hnz. rewrite Hnz.
  destruct (nonempty_snoc Hne) as (l0 & t & ->). now rewrite last1_app.
Qed.

(** X16.  The forward pass gets as many input tokens as the iteration
    width says: for a sub-batch built by the add and pop operations whose
    prefill requests have generated nothing and hold [prompt_len] prompt
    ids, and whose decode requests have generated at least one id,
    [get_input_tokens(all_reqs)] has exactly [iter_width] tokens. *)
Theorem input_tokens_fill_iter_width
  (h : heap) (p : PerfPredictor) (sb : SubBatch.t) (cfg : LlamaModelConfig) :
  composed h p sb ->
  (forall req,
      In req (SubBatch.cprf_reqs sb ++ SubBatch.gprf_reqs sb ++
              SubBatch.gdec_reqs sb ++ SubBatch.cdec_reqs sb) ->
      0 <= request_id (h req)) ->
  (forall req,
      In req (SubBatch.cprf_reqs sb ++ SubBatch.gprf_reqs sb) ->
      output_len (h req) = 0 /\
      len (prompt_token_ids (h req)) = prompt_len (h req)) ->
  (forall req,
      In req (SubBatch.gdec_reqs sb ++ SubBatch.cdec_reqs sb) ->
      output_len (h req) <> 0 /\ output_token_ids (h req) <> []) ->
  exists fin,
    SubBatch.set_model_forward_args h sb cfg = Ret fin /\
    len (get_input_tokens h (all_reqs fin)) = iter_width fin.
Proof.
  intros Hc Hids Hpre Hdec.
  destruct (composed_invariant Hc) as (_ & Hs).
  apply ids_assigned_spec in Hids.
  unfold SubBatch.set_model_forward_args. rewrite Hids.
  eexists. split; [reflexivity|]. cbn [all_reqs iter_width].
  rewrite (app_assoc (SubBatch.cprf_reqs sb)).
  rewrite get_input_tokens_app, len_app.
  rewrite (input_tokens_prefill h _ Hpre), (input_tokens_decode h _ Hdec).
  rewrite Hs, prompt_lens_app, sum_list_app, len_app. lia.
Qed.

Lemma input_tokens_fill_iter_width_witness :
  let sb := SubBatch.add_gdec created_heap
              (SubBatch.add_pref created_heap
                 (SubBatch.init ZeroPerfPredictor) 0%nat true) 1%nat in
  exists fin,
    SubBatch.set_model_forward_args created_heap sb {| num_kv_heads := 8 |}
    = Ret fin /\
    len (get_input_tokens created_heap (all_reqs fin)) = iter_width fin /\
    iter_width fin = 4.
Proof.
  intro sb.
  destruct (@input_tokens_fill_iter_width created_heap ZeroPerfPredictor sb
              {| num_kv_heads := 8 |}) as (fin & Hrun & Hlen).
  - apply composed_add_gdec, composed_add_pref, composed_init.
  - intros req _. unfold created_heap. cbn. lia.
  - intros req [<-|[]]. split; reflexivity.
  - intros req [<-|[]]. split; discriminate.
  - exists fin. split; [exact Hrun|]. split; [exact Hlen|].
    cbn in Hrun. inversion Hrun. reflexivity.
Defined.

(** * The engine configuration and the evaluation server *)

(** [start_server] reaches the engine branch only with a name that, once
    ["_4"] is taken out, is one of the four engine names and does not
    begin with ["vllm"]; the arguments are then those of the branch. *)
Lemma start_server_engine name config args :
  start_server name config = LaunchEngine args ->
  String.prefix "vllm" (remove_4 name) = false /\
  In (remove_4 name) ["ours"; "base"; "fsdc"; "ours_4"]%string /\
  engine_branch (remove_4 name) config = Some args.
Proof.
  unfold start_server. cbv zeta.
  destruct (String.prefix "vllm" (remove_4 name)); [discriminate|].
  destruct (existsb _ _) eqn:Ex; [|discriminate].
  destruct (engine_branch _ _) as [a|] eqn:Eb; [|discriminate].
  intro H. inversion H; subst a. split; [reflexivity|].
  split; [|reflexivity].
  apply existsb_exists in Ex. destruct Ex as (x & Hin & Heq).
  apply String.eqb_eq in Heq. now subst x.
Qed.

(** The three other ways of [start_server]. *)
Example start_server_unknown_name :
  start_server "mystery" example_eval_config = RaiseValueError.
Proof. reflexivity. Qed.

Example start_server_vllm_name :
  start_server "vllm512_4" example_eval_config = VllmBranch.
Proof. reflexivity. Qed.

Example start_server_parallel_name :
  start_server "ours_4" example_eval_config
  = start_server "ours" example_eval_config.
Proof. reflexivity. Qed.

(** X17.  When [start_server] launches the engine of this repository (the
    name, with ["_4"] taken out, is "ours", "base", "fsdc" or "ours_4"),
    it gives the engine enough blocks per sequence for a full batch of
    tokens and no block more: an [EngineConfig] that holds the block size
    and the number of blocks per sequence put on the command line has a
    [max_seq_len] of at least [max_num_batched_tokens] and less than one
    block above it. *)
Theorem engine_max_seq_len_covers_batch
  (name : string) (config : EvalConfig) (args : EngineArgs)
  (e : EngineConfig.t) :
  start_server name config = LaunchEngine args ->
  0 < cfg_block_size config ->
  EngineConfig.block_size e = arg_block_size args ->
  EngineConfig.max_blocks_per_seq e = arg_max_blocks_per_seq args ->
  arg_max_tokens_in_batch args = cfg_max_num_batched_tokens config /\
  cfg_max_num_batched_tokens config <= EngineConfig.max_seq_len e /\
  EngineConfig.max_seq_len e
    < cfg_max_num_batched_tokens config + cfg_block_size config.
Proof.
  intros Hs Hbs Eb Em. unfold EngineConfig.max_seq_len. rewrite Eb, Em.
  destruct (start_server_engine _ _ Hs) as (_ & _ & Hargs).
  unfold engine_branch in Hargs.
  assert (Hnz : (cfg_block_size config =? 0) = false)
    by (apply Z.eqb_neq; lia).
  destruct (String.eqb (remove_4 name) "base");
    [|destruct (String.eqb (remove_4 name) "ours");
      destruct (cfg_num_layers config + 1 =? 0); try discriminate];
    rewrite Hnz in Hargs; inversion Hargs; subst args;
    cbn [arg_block_size arg_max_blocks_per_seq arg_max_tokens_in_batch];
    (split; [reflexivity|]);
    pose proof (Z.div_mod (cfg_max_num_batched_tokens config - 1)
                          (cfg_block_size config) ltac:(lia));
    pose proof (Z.mod_pos_bound (cfg_max_num_batched_tokens config - 1)
                                (cfg_block_size config) Hbs);
    nia.
Qed.

Lemma engine_max_seq_len_covers_batch_witness :
  2050 <= EngineConfig.max_seq_len example_engine_config < 2050 + 16.
Proof.
  destruct (engine_branch "ours" example_eval_config) as [args|] eqn:Eargs;
    [|discriminate Eargs].
  assert (Hs : start_server "ours_4" example_eval_config = LaunchEngine args).
  { unfold start_server. cbn [remove_4 Ascii.eqb Bool.eqb andb].
    cbn in Eargs. cbn. now inversion Eargs. }
  destruct (@engine_max_seq_len_covers_batch "ours_4" example_eval_config
              args example_engine_config Hs) as (_ & Hlo & Hhi).
  - reflexivity.
  - cbn in Eargs. inversion Eargs. reflexivity.
  - cbn in Eargs. inversion Eargs. reflexivity.
  - split; [exact Hlo | exact Hhi].
Defined.

(** X18.  [start_server] launches the engine of this repository only for
    a name that, with ["_4"] taken out, is "ours", "base", "fsdc" or
    "ours_4" and does not begin with "vllm".  For "base" it passes the
    configured number of GPU blocks, an eighth of the swap space (rounded
    down) and [--always-use-gpu].  For the other three it turns on
    [--extra-layer-for-cprf], keeps the swap space and scales the GPU
    blocks by [num_layers / (num_layers + 1)], rounded down: with
    [num_layers >= 0], one more layer of the reduced block count fits in
    what [num_layers] layers of the configured count take, and one block
    more would not; [--disable-partial-offl] is on for all of them but
    "ours". *)
Theorem engine_blocks_leave_room
  (name : string) (config : EvalConfig) (args : EngineArgs) :
  start_server name config = LaunchEngine args ->
  0 <= cfg_num_layers config ->
  let nl := cfg_num_layers config in
  let variant := remove_4 name in
  In variant ["ours"; "base"; "fsdc"; "ours_4"]%string /\
  String.prefix "vllm" variant = false /\
  (variant = "base"%string ->
   arg_switches args = ["--always-use-gpu"%string] /\
   arg_num_gpu_blocks_override args = cfg_num_gpu_blocks_override config /\
   8 * arg_swap_space args <= cfg_swap_space config
     < 8 * arg_swap_space args + 8) /\
  (variant <> "base"%string ->
   In "--extra-layer-for-cprf"%string (arg_switches args) /\
   ~ In "--always-use-gpu"%string (arg_switches args) /\
   (In "--disable-partial-offl"%string (arg_switches args) <->
    variant <> "ours"%string) /\
   arg_swap_space args = cfg_swap_space config /\
   arg_num_gpu_blocks_override args * (nl + 1)
     <= cfg_num_gpu_blocks_override config * nl
     < (arg_num_gpu_blocks_override args + 1) * (nl + 1)).
Proof.
  intros Hs Hnl nl variant.
  destruct (start_server_engine _ _ Hs) as (Hv & Hin & Hargs).
  fold variant in Hv, Hin, Hargs.
  split; [exact Hin|]. split; [exact Hv|].
  unfold engine_branch in Hargs. fold nl in Hargs.
  destruct (String.eqb_spec variant "base") as [Eb | Eb].
  - split; [intros _|intro Hne; now elim Hne].
    destruct (cfg_block_size config =? 0); [discriminate|].
    inversion Hargs; subst args.
    cbn [arg_switches arg_num_gpu_blocks_override arg_swap_space].
    split; [reflexivity|]. split; [reflexivity|].
    pose proof (Z.div_mod (cfg_swap_space config) 8 ltac:(lia)).
    pose proof (Z.mod_pos_bound (cfg_swap_space config) 8 ltac:(lia)).
    lia.
  - split; [intro E; now elim Eb|intros _].
    assert (Hdiv :
              cfg_num_gpu_blocks_override config * nl / (nl + 1) * (nl + 1)
              <= cfg_num_gpu_blocks_override config * nl
              < (cfg_num_gpu_blocks_override config * nl / (nl + 1) + 1)
                * (nl + 1)).
    { pose proof (Z.div_mod (cfg_num_gpu_blocks_override config * nl)
                            (nl + 1) ltac:(lia)).
      pose proof (Z.mod_pos_bound (cfg_num_gpu_blocks_override config * nl)
                                  (nl + 1) ltac:(lia)).
      nia. }
    destruct (String.eqb_spec variant "ours") as [Eo | Eo];
      (destruct (nl + 1 =? 0); [discriminate|]);
      (destruct (cfg_block_size config =? 0); [discriminate|]);
      inversion Hargs; subst args;
      cbn [arg_switches arg_num_gpu_blocks_override arg_swap_space];
      (split; [cbn; tauto|]);
      (split; [cbn; intuition discriminate|]);
      (split; [|split; [reflexivity | exact Hdiv]]).
    + split; [cbn; intuition discriminate | intro Hne; now elim Hne].
    + split; [intros _; exact Eo | intros _; cbn; tauto].
Qed.

Lemma engine_blocks_leave_room_witness :
  exists args,
    start_server "ours" example_eval_config = LaunchEngine args /\
    arg_num_gpu_blocks_override args = 969 /\
    arg_num_gpu_blocks_override args * 33 <= 1000 * 32.
Proof.
  destruct (engine_branch "ours" example_eval_config) as [args|] eqn:Eargs;
    [|discriminate Eargs].
  assert (Hs : start_server "ours" example_eval_config = LaunchEngine args).
  { cbn in Eargs. cbn. now inversion Eargs. }
  destruct (@engine_blocks_leave_room "ours" example_eval_config args Hs)
    as (_ & _ & _ & Hours).
  - cbn. lia.
  - destruct Hours as (_ & _ & _ & _ & Hlo & _); [discriminate|].
    exists args. split; [exact Hs|]. split; [|exact Hlo].
    cbn in Eargs. inversion Eargs. reflexivity.
Defined.

(** * A request listed more than once, and lists held in common *)

Lemma heap_after_tokens ls pairs :
  forall (h : heap) r,
    output_token_ids (heap_after ls pairs h r) =
    output_token_ids (h r)
    ++ map snd (filter (fun pr => Nat.eqb (ls (fst pr)) (ls r)) pairs).
Proof.
  induction pairs as [|[r0 tok0] rest IH]; intros h r.
  - cbn. now rewrite app_nil_r.
  - cbn [heap_after filter fst]. rewrite IH, pass_ids.
    rewrite (Nat.eqb_sym (ls r) (ls r0)).
    destruct (Nat.eqb (ls r0) (ls r)).
    + cbn. now rewrite <- app_assoc.
    + now rewrite app_nil_r.
Qed.

(** X19.  In one [update_output] call on requests with all their
    attributes, a request that is named [k] times in the request list is
    advanced [k] times: [output_len] goes up by [k].  Its output ids get,
    in order, the tokens at the positions of all the listed requests that
    hold its list; when no other listed request holds its list, these are
    the tokens at its own positions.  (A request that is not listed has
    [k = 0], and still gets the tokens of the listed requests that hold
    its list.) *)
Theorem update_output_repeated_request ls reqs toks (h : heap) r :
  length reqs = length toks ->
  (forall r', In r' reqs -> initialised (h r')) ->
  let h' := fst (update_output ls reqs toks h) in
  output_len (h' r) =
    output_len (h r) + Z.of_nat (count_occ Nat.eq_dec reqs r) /\
  output_token_ids (h' r) =
    output_token_ids (h r)
    ++ map snd (filter (fun pr => Nat.eqb (ls (fst pr)) (ls r))
                       (combine reqs toks)) /\
  ((forall r0, In r0 reqs -> ls r0 = ls r -> r0 = r) ->
   output_token_ids (h' r) =
     output_token_ids (h r)
     ++ map snd (filter (fun pr => Nat.eqb (fst pr) r) (combine reqs toks))).
Proof.
  intros Hlen Hi. cbv zeta. rewrite update_output_run by assumption.
  cbn [fst]. split; [|split].
  - rewrite heap_after_len. now rewrite map_fst_combine.
  - apply heap_after_tokens.
  - intro Hown. rewrite heap_after_tokens. f_equal. f_equal.
    apply filter_ext_in. intros [r0 tok0] Hin. cbn [fst].
    destruct (Nat.eqb_spec r0 r) as [->|Hne]; [apply Nat.eqb_refl|].
    apply Nat.eqb_neq. intro E. apply Hne, Hown; [|exact E].
    eapply in_combine_l, Hin.
Qed.

Lemma update_output_repeated_request_witness :
  let h' := fst (update_output shared_01 [1; 2; 1; 0]%nat [7; 8; 9; 10]
                   twin_heap) in
  output_len (h' 1%nat) = 3 /\
  output_token_ids (h' 1%nat) = [5; 7; 9; 10] /\
  output_token_ids (h' 2%nat) = [5; 8].
Proof.
  destruct (@update_output_repeated_request shared_01 [1; 2; 1; 0]%nat
              [7; 8; 9; 10] twin_heap 1%nat)
    as (Hlen & Hids & _).
  - reflexivity.
  - intros r [<-|[<-|[<-|[<-|[]]]]]; repeat split; discriminate.
  - split; [exact Hlen|]. split; [exact Hids|]. reflexivity.
Defined.
